(** * Verification of the evaluation runner [evaluation/run_all_metrics.py]

    A shallow embedding of the column resolver, the path resolver, the CSV
    standardiser, the best/worst summariser and the cultural stage of the
    pipeline driver, with the properties stated for them. *)

From Stdlib Require Import Ascii String QArith Qcanon.
From stdpp Require Import gmap strings list fin_maps sorting pretty.

Local Open Scope string_scope.
Local Open Scope list_scope.

(** ** Python string primitives

    Strings are byte strings holding ASCII text: [lower] and [strip] act on
    the ASCII range the way [str.lower] and [str.strip] do and leave other
    bytes alone. *)
Module Py.

(** [str.isspace] on the ASCII range: TAB, LF, VT, FF, CR, FS, GS, RS, US and
    the space. *)
Definition is_space (a : ascii) : bool :=
  let n := nat_of_ascii a in
  (((9 <=? n) && (n <=? 13)) || ((28 <=? n) && (n <=? 32)))%nat.

Definition lower_ascii (a : ascii) : ascii :=
  let n := nat_of_ascii a in
  if ((65 <=? n) && (n <=? 90))%nat then ascii_of_nat (n + 32) else a.

Fixpoint lower (s : string) : string :=
  match s with
  | EmptyString => EmptyString
  | String a s' => String (lower_ascii a) (lower s')
  end.

Fixpoint lstrip (s : string) : string :=
  match s with
  | EmptyString => EmptyString
  | String a s' => if is_space a then lstrip s' else s
  end.

Fixpoint rstrip (s : string) : string :=
  match s with
  | EmptyString => EmptyString
  | String a s' =>
      match rstrip s' with
      | EmptyString => if is_space a then EmptyString else String a EmptyString
      | r => String a r
      end
  end.

Definition strip (s : string) : string := rstrip (lstrip s).

(** Truth value of an [Optional[str]]: [None] and the empty string are
    false. *)
Definition truthy (o : option string) : bool :=
  match o with
  | Some (String _ _) => true
  | _ => false
  end.

(** [s] has a character that is not white space. *)
Fixpoint has_ink (s : string) : bool :=
  match s with
  | EmptyString => false
  | String a s' => negb (is_space a) || has_ink s'
  end.

End Py.

(** ** Column resolver *)

(** [col.lower().strip()] *)
Definition norm (s : string) : string := Py.strip (Py.lower s).

(** The dict comprehension [{col.lower().strip(): col for col in columns}]:
    keys are inserted in header order, a later header overwrites an earlier
    one with the same key. *)
Definition lookup_of (columns : list string) : gmap string string :=
  foldl (λ m col, <[norm col := col]> m) ∅ columns.

Fixpoint find_in (lookup : gmap string string) (candidates : list string)
  : option string :=
  match candidates with
  | [] => None
  | cand :: rest =>
      match lookup !! norm cand with
      | Some col => Some col
      | None => find_in lookup rest
      end
  end.

Definition find_column (columns candidates : list string) : option string :=
  find_in (lookup_of columns) candidates.

(** The resolver as the specification words it: the first header, in header
    order, whose normal form equals the normal form of some candidate. *)
Definition first_matching_header (columns candidates : list string)
  : option string :=
  head (filter (λ h, norm h ∈ norm <$> candidates) columns).

(** What the code computes: the candidates are tried in their order, and the
    first candidate matched by some header selects the last header that has
    its normal form. *)
Definition last_header_of_first_candidate (columns candidates : list string)
  : option string :=
  c ← head (filter (λ c, norm c ∈ norm <$> columns) candidates);
  last (filter (λ h, norm h = norm c) columns).

(** ** Results and errors *)

Inductive error :=
  | FileNotFoundError
  | ValueError (msg : string)
  | KeyError (key : string)
  | CalledProcessError
  | RuntimeError
  | ParserError
  | OSError.

Inductive result (A : Type) :=
  | Ok (a : A)
  | Raise (e : error).
Arguments Ok {A} a.
Arguments Raise {A} e.

Definition is_ok {A} (r : result A) : bool :=
  match r with Ok _ => true | Raise _ => false end.

(** Calls made one after the other, up to the first that raises. *)
Fixpoint collect {A B} (f : A → result B) (l : list A) : result (list B) :=
  match l with
  | [] => Ok []
  | x :: l' =>
      match f x with
      | Raise e => Raise e
      | Ok y =>
          match collect f l' with
          | Ok ys => Ok (y :: ys)
          | Raise e => Raise e
          end
      end
  end.

(** ** Path resolver

    [pathlib] on POSIX: a path is a root and a list of names. *)
Module PathLib.

Record Path := mkPath { root : string; parts : list string }.

Fixpoint split_sep (s : string) : list string :=
  match s with
  | EmptyString => [EmptyString]
  | String a s' =>
      if Ascii.eqb a "/" then EmptyString :: split_sep s'
      else match split_sep s' with
           | hd :: tl => String a hd :: tl
           | [] => [String a EmptyString]
           end
  end.

Fixpoint join_sep (names : list string) : string :=
  match names with
  | [] => EmptyString
  | [n] => n
  | n :: rest => n +:+ "/" +:+ join_sep rest
  end.

(** [posixpath.splitroot]: no leading slash is a relative path, exactly two
    leading slashes are the root [//], any other number is the root [/]. *)
Definition starts_with_sep (s : string) : bool :=
  match s with
  | String a _ => Ascii.eqb a "/"
  | EmptyString => false
  end.

Definition tail (s : string) : string :=
  match s with
  | String _ s' => s'
  | EmptyString => EmptyString
  end.

Definition splitroot (s : string) : string :=
  if negb (starts_with_sep s) then ""
  else if negb (starts_with_sep (tail s)) || starts_with_sep (tail (tail s))
       then "/"
       else "//".

Definition is_name (n : string) : bool :=
  negb (String.eqb n "") && negb (String.eqb n ".").

(** [Path(value)]: empty names and [.] are dropped, [..] is kept. *)
Definition parse (value : string) : Path :=
  mkPath (splitroot value) (List.filter is_name (split_sep value)).

(** [str(path)] *)
Definition str (p : Path) : string :=
  match root p, parts p with
  | EmptyString, [] => "."
  | r, ns => r +:+ join_sep ns
  end.

Definition is_absolute (p : Path) : bool := negb (String.eqb (root p) "").

(** [base / value] *)
Definition joinpath (base : Path) (value : string) : Path :=
  let p := parse value in
  if is_absolute p then p else mkPath (root base) (parts base ++ parts p).

(** A name of a canonical path: not empty, not [.], not [..]. *)
Definition proper_name (n : string) : Prop := n ≠ "" ∧ n ≠ "." ∧ n ≠ "..".


End PathLib.

Section PathResolver.

(** [Path.resolve()] is a call into the library and, through it, into the
    file system: it returns a path or raises, a loop of symbolic links
    making it raise under CPython up to 3.12 and not later. It is kept as
    a parameter, so that what is proved holds whatever the library and the
    file system answer. *)
Variable resolve : PathLib.Path → result PathLib.Path.

Definition resolve_path (base_dir : PathLib.Path) (value : string)
  : result string :=
  let value := Py.strip value in
  match value with
  | EmptyString => Ok ""
  | _ =>
      let path := PathLib.parse value in
      if negb (PathLib.is_absolute path) then
        match resolve (PathLib.joinpath base_dir value) with
        | Ok path => Ok (PathLib.str path)
        | Raise e => Raise e
        end
      else Ok (PathLib.str path)
  end.

End PathResolver.

(** What the library promises of a path [resolve()] returns: it starts at
    the root and none of its names is empty, [.] or [..]. *)
Definition resolves_to_canonical
    (resolve : PathLib.Path → result PathLib.Path) : Prop :=
  ∀ p p', resolve p = Ok p' →
    PathLib.starts_with_sep (PathLib.root p') = true ∧
    Forall PathLib.proper_name (PathLib.parts p').

(** ** Tables

    A table as [pd.read_csv] hands it over: the header and the data rows, a
    cell being missing, a number or a text. *)
Module Pandas.

Inductive cell :=
  | NaN
  | Num (q : Qc)
  | Str (s : string).

Global Instance cell_eq_dec : EqDecision cell.
Proof. solve_decision. Defined.

Record DataFrame := mkDF { columns : list string; rows : list (list cell) }.

(** [df.empty]: some axis has length zero. *)
Definition empty (df : DataFrame) : bool :=
  match columns df, rows df with
  | [], _ | _, [] => true
  | _, _ => false
  end.

Fixpoint position (c : string) (cols : list string) : option nat :=
  match cols with
  | [] => None
  | h :: t => if String.eqb h c then Some 0 else S <$> position c t
  end.

(** [row[c]]: the cell under the column [c]; a row that stops short of the
    column has a missing cell there. *)
Definition get (cols : list string) (row : list cell) (c : string) : cell :=
  match position c cols with
  | Some j => default NaN (row !! j)
  | None => NaN
  end.

Definition notna (v : cell) : bool :=
  match v with NaN => false | _ => true end.

End Pandas.

Import Pandas.

(** ** CSV standardiser *)

Record CanonicalCSV := mkCSV {
  fieldnames : list string;
  records : list (list string)
}.

Definition prompt_candidates : list string :=
  ["prompt"; "t2i prompt"; "text"; "text_prompt"].
Definition editing_candidates : list string :=
  ["editing_prompt"; "i2i prompt"; "instruction"].
Definition step0_candidates : list string :=
  ["step0"; "step0_path"; "base"; "base_path"].
Definition step_candidates (idx : nat) : list string :=
  let i := pretty idx in
  ["step" +:+ i; "step" +:+ i +:+ "_path"; "edit_" +:+ i;
   "edit_" +:+ i +:+ "_path"; "edit" +:+ i; "edit" +:+ i +:+ "_path"].

Definition step_field (idx : nat) : string := "step" +:+ pretty idx +:+ "_path".

(** The dict [step_columns]: step 0 under its own names, steps 1 to 9 under
    the six spellings of each. *)
Definition add_step (columns : list string) (sc : gmap nat string) (idx : nat)
  : gmap nat string :=
  match find_column columns (step_candidates idx) with
  | Some col => if Py.truthy (Some col) then <[idx := col]> sc else sc
  | None => sc
  end.

Definition step_columns_of (columns : list string) : gmap nat string :=
  let sc0 : gmap nat string :=
    match find_column columns step0_candidates with
    | Some col => if Py.truthy (Some col) then {[0 := col]} else ∅
    | None => ∅
    end in
  foldl (add_step columns) sc0 (seq 1 9).

(** The step indices the standardiser looks for, each with the spellings it
    accepts, and those for which the header has a column. *)
Definition candidates_of_step (idx : nat) : list string :=
  match idx with O => step0_candidates | _ => step_candidates idx end.

Definition detected_steps (columns : list string) : list nat :=
  filter (λ idx, is_Some (find_column columns (candidates_of_step idx))) (seq 0 10).

(** [max(step_columns)]: the largest key. *)
Definition max_key (sc : gmap nat string) : nat := max_list (map_to_list sc).*1.

(** The loop that writes the rows: the records written, in order, and the
    error that ended the loop before its last row, if any. *)
Fixpoint write_rows {A} (record : A → result (list string)) (rows : list A)
  : list (list string) * option error :=
  match rows with
  | [] => ([], None)
  | row :: rest =>
      match record row with
      | Raise e => ([], Some e)
      | Ok r => let '(written, stopped) := write_rows record rest in
                (r :: written, stopped)
      end
  end.

Section Standardiser.

(** [str] of a numeric cell: the decimal text Python prints for it. *)
Variable str_num : Qc → string.

Definition str_cell (v : cell) : string :=
  match v with
  | NaN => "nan"
  | Num q => str_num q
  | Str s => s
  end.

Variable resolve : PathLib.Path → result PathLib.Path.

Definition step_cell (model_dir : PathLib.Path) (columns : list string)
    (sc : gmap nat string) (row : list cell) (idx : nat) : result string :=
  match sc !! idx with
  | Some src_col =>
      if Py.truthy (Some src_col) && notna (get columns row src_col)
      then resolve_path resolve model_dir (str_cell (get columns row src_col))
      else Ok ""
  | None => Ok ""
  end.

(** What a step cell is meant to hold: nothing without a source column or a
    value, what the path resolver makes of the value otherwise. *)
Definition expected_step (model_dir : PathLib.Path) (columns : list string)
    (row : list cell) (idx : nat) : result string :=
  match find_column columns (candidates_of_step idx) with
  | None => Ok ""
  | Some src =>
      match get columns row src with
      | NaN => Ok ""
      | v => resolve_path resolve model_dir (str_cell v)
      end
  end.

(** What the editing prompt of a row is meant to be: nothing without an
    editing column or a value, the trimmed text of the value otherwise. *)
Definition expected_editing (columns : list string) (row : list cell) : string :=
  match find_column columns editing_candidates with
  | None => ""
  | Some col =>
      match get columns row col with
      | NaN => ""
      | v => Py.strip (str_cell v)
      end
  end.

(** What the record of a row is meant to be: the trimmed prompt, the
    editing prompt, and one cell for each step up to [max_step]; it cannot
    be made when a step path cannot be resolved. *)
Definition expected_record (model_dir : PathLib.Path) (columns : list string)
    (prompt_col : string) (max_step : nat) (row : list cell)
  : result (list string) :=
  match collect (expected_step model_dir columns row) (seq 0 (S max_step)) with
  | Ok cells =>
      Ok (Py.strip (str_cell (get columns row prompt_col))
            :: expected_editing columns row :: cells)
  | Raise e => Raise e
  end.

(** The record of one row; the step paths are resolved in the order of the
    steps, and the first call that raises ends the making of the record. *)
Definition record_of (model_dir : PathLib.Path) (columns : list string)
    (prompt_col : string) (editing_col : option string)
    (sc : gmap nat string) (max_step : nat) (row : list cell)
  : result (list string) :=
  let prompt := Py.strip (str_cell (get columns row prompt_col)) in
  let editing :=
    match editing_col with
    | Some col =>
        if Py.truthy editing_col && notna (get columns row col)
        then Py.strip (str_cell (get columns row col))
        else ""
    | None => ""
    end in
  match collect (step_cell model_dir columns sc row) (seq 0 (S max_step)) with
  | Ok cells => Ok (prompt :: editing :: cells)
  | Raise e => Raise e
  end.

(** [source] is [None] when [model_dir / "prompt-img-path.csv"] does not
    exist, and otherwise what [pd.read_csv] makes of it, a table or the
    error it raises on a file it cannot parse. [open_output] is the error
    of creating the output directory and opening the output file, if any;
    writing to the opened file is taken to succeed. The result is the
    content of the output file, [None] when the file was not opened, and
    the returned [max_step] or the error raised. A row whose record cannot
    be made ends the run; the header and the records of the rows before it
    are in the file by then. *)
Definition standardise_model_csv (model_dir : PathLib.Path)
    (source : option (result DataFrame)) (open_output : option error)
  : option CanonicalCSV * result nat :=
  match source with
  | None => (None, Raise FileNotFoundError)
  | Some (Raise e) => (None, Raise e)
  | Some (Ok df) =>
      if empty df then (None, Raise (ValueError "No rows found"))
      else
        let prompt_col := find_column (columns df) prompt_candidates in
        let editing_col := find_column (columns df) editing_candidates in
        match prompt_col with
        | Some pcol =>
            if negb (Py.truthy prompt_col)
            then (None, Raise (ValueError "Unable to locate prompt column"))
            else
              let sc := step_columns_of (columns df) in
              if bool_decide (sc = ∅)
              then (None, Raise (ValueError "No step columns found"))
              else
                let max_step := max_key sc in
                match open_output with
                | Some e => (None, Raise e)
                | None =>
                    let '(written, stopped) :=
                      write_rows (record_of model_dir (columns df) pcol
                                    editing_col sc max_step) (rows df) in
                    (Some (mkCSV
                             ("prompt" :: "editing_prompt"
                                :: fmap step_field (seq 0 (S max_step)))
                             written),
                     match stopped with
                     | Some e => Raise e
                     | None => Ok max_step
                     end)
                end
        | None => (None, Raise (ValueError "Unable to locate prompt column"))
        end
  end.

End Standardiser.

(** ** Best/worst summariser *)

(** The order in which [groupby] and an outer [merge] list their keys:
    numbers by value, texts lexicographically, a missing key last. *)
Definition cell_leb (a b : cell) : bool :=
  match a, b with
  | _, NaN => true
  | NaN, _ => false
  | Num x, Num y => bool_decide (x ≤ y)%Qc
  | Num _, Str _ => true
  | Str _, Num _ => false
  | Str x, Str y => String.leb x y
  end.

Definition sorted_keys (keys : list cell) : list cell :=
  merge_sort (λ a b, cell_leb a b) (remove_dups keys).

Definition column_cells (df : DataFrame) (c : string) : list cell :=
  fmap (λ row, get (columns df) row c) (rows df).

(** [df.loc[idx]] on the default integer index. *)
Definition loc (df : DataFrame) (idx : list nat) : DataFrame :=
  mkDF (columns df) (omap (λ i, rows df !! i) idx).

Definition add_prefix (prefix : string) (df : DataFrame) : DataFrame :=
  mkDF (fmap (λ c, prefix +:+ c) (columns df)) (rows df).

Definition rows_with_key (df : DataFrame) (on : string) (k : cell)
  : list (list cell) :=
  filter (λ row, get (columns df) row on = k) (rows df).

(** [left.merge(right, left_on=..., right_on=..., how='outer')] with key
    columns of different names: the columns of both sides, the keys of
    either side in sorted order, and under each key every pairing of the
    rows that carry it, a side without the key being filled with missing
    cells. *)
Definition merge_outer (left right : DataFrame) (left_on right_on : string)
  : DataFrame :=
  let keys := sorted_keys (column_cells left left_on ++ column_cells right right_on) in
  let blank (df : DataFrame) := replicate (length (columns df)) NaN in
  mkDF (columns left ++ columns right)
    (keys ≫= λ k,
       match rows_with_key left left_on k, rows_with_key right right_on k with
       | [], rs => fmap (λ r, blank left ++ r) rs
       | ls, [] => fmap (λ l, l ++ blank right) ls
       | ls, rs => ls ≫= λ l, fmap (λ r, l ++ r) rs
       end).

Definition rename_column (old new : string) (df : DataFrame) : DataFrame :=
  mkDF (fmap (λ c, if String.eqb c old then new else c) (columns df)) (rows df).

Definition drop_column (c : string) (df : DataFrame) : DataFrame :=
  match position c (columns df) with
  | Some j => mkDF (delete j (columns df)) (fmap (delete j) (rows df))
  | None => df
  end.

Definition numeric_cols : list string := ["accuracy"; "precision"; "recall"; "f1"].

Section Summariser.

(** [float(s)] for a text that spells a number, [None] for any other text:
    what [pd.to_numeric(..., errors='coerce')] makes of a text cell. *)
Variable float_of_str : string → option Qc.

Definition to_numeric (v : cell) : cell :=
  match v with
  | NaN => NaN
  | Num q => Num q
  | Str s => match float_of_str s with Some q => Num q | None => NaN end
  end.

(** [df[col] = pd.to_numeric(df[col], errors='coerce')] *)
Definition coerce_column (col : string) (df : DataFrame) : result DataFrame :=
  match position col (columns df) with
  | None => Raise (KeyError col)
  | Some j => Ok (mkDF (columns df) (fmap (alter to_numeric j) (rows df)))
  end.

Fixpoint coerce_columns (cols : list string) (df : DataFrame) : result DataFrame :=
  match cols with
  | [] => Ok df
  | col :: rest =>
      match coerce_column col df with
      | Ok df' => coerce_columns rest df'
      | Raise e => Raise e
      end
  end.

(** [df['num_questions'] = pd.to_numeric(df.get('num_questions'), errors='coerce')]:
    an absent column is created, every cell missing. *)
Definition set_num_questions (df : DataFrame) : DataFrame :=
  match position "num_questions" (columns df) with
  | Some j => mkDF (columns df) (fmap (alter to_numeric j) (rows df))
  | None => mkDF (columns df ++ ["num_questions"]) (fmap (λ row, row ++ [NaN]) (rows df))
  end.

(** The value and place of the extreme of one group seen so far: a row of
    another group or with a missing value changes nothing, and a later row
    replaces the current one only when strictly better. *)
Definition extreme_step (better : Qc → Qc → bool) (cols : list string)
    (group value : string) (k : cell) (acc : option (nat * Qc))
    (irow : nat * list cell) : option (nat * Qc) :=
  if decide (get cols irow.2 group = k) then
    match get cols irow.2 value, acc with
    | Num q, Some (_, b) => if better q b then Some (irow.1, q) else acc
    | Num q, None => Some (irow.1, q)
    | _, _ => acc
    end
  else acc.

Definition idx_extreme (better : Qc → Qc → bool) (df : DataFrame)
    (group value : string) (k : cell) : option nat :=
  fst <$> foldl (extreme_step better (columns df) group value k) None
            (imap (λ i row, (i, row)) (rows df)).

(** The keys of [df.groupby(group)]: the distinct values of the column, in
    sorted order, a missing value forming no group. *)
Definition group_keys (df : DataFrame) (group : string) : list cell :=
  sorted_keys (filter (λ v, v ≠ NaN) (column_cells df group)).

Definition gt (q b : Qc) : bool := bool_decide (b < q)%Qc.
Definition lt (q b : Qc) : bool := bool_decide (q < b)%Qc.

(** [df.groupby(group)[value].idxmax().dropna()] and its [idxmin] twin. A
    group without a numeric value has a missing index, which [dropna]
    removes; this is what pandas 2 does, pandas 3 raising on such a group. *)
Definition idxmax (df : DataFrame) (group value : string) : list nat :=
  omap (idx_extreme gt df group value) (group_keys df group).
Definition idxmin (df : DataFrame) (group value : string) : list nat :=
  omap (idx_extreme lt df group value) (group_keys df group).

(** [df] is what [pd.read_csv(summary_csv)] returned. [Ok None] is the
    return that writes nothing, [Ok (Some t)] the table written to
    [output_csv]. *)
Definition summarize_best_worst (df : DataFrame) : result (option DataFrame) :=
  if empty df || negb (bool_decide ("group_id" ∈ columns df)) then Ok None
  else
    match coerce_columns numeric_cols df with
    | Raise e => Raise e
    | Ok df =>
        let df := set_num_questions df in
        let best_idx := idxmax df "group_id" "f1" in
        let worst_idx := idxmin df "group_id" "f1" in
        let best := add_prefix "best_" (loc df best_idx) in
        let worst := add_prefix "worst_" (loc df worst_idx) in
        let combined := merge_outer best worst "best_group_id" "worst_group_id" in
        let combined := rename_column "best_group_id" "group_id" combined in
        let combined :=
          if bool_decide ("worst_group_id" ∈ columns combined)
          then drop_column "worst_group_id" combined else combined in
        Ok (Some combined)
    end.

End Summariser.

(** ** Pipeline driver: the cultural stage

    The CSV files on disk are a map from paths to tables; the driver runs in
    a state and error monad over them, and logs the scorer and summariser
    calls it makes. *)

Inductive event :=
  | RunCultural (model : string)
  | Summarize (model : string).

Global Instance event_eq_dec : EqDecision event.
Proof. solve_decision. Defined.

Record World := mkWorld {
  files : gmap string DataFrame;
  log : list event
}.

Definition M (A : Type) : Type := World → result A * World.

Definition ret {A} (a : A) : M A := λ w, (Ok a, w).
Definition raise {A} (e : error) : M A := λ w, (Raise e, w).
Definition bind {A B} (m : M A) (k : A → M B) : M B :=
  λ w, match m w with
       | (Ok a, w') => k a w'
       | (Raise e, w') => (Raise e, w')
       end.

Declare Scope drv_scope.
Delimit Scope drv_scope with drv.
Notation "x <- m ;; k" := (bind m (λ x, k))
  (at level 100, m at next level, right associativity) : drv_scope.
Notation "m ;;; k" := (bind m (λ _, k))
  (at level 100, right associativity) : drv_scope.

Definition emit (e : event) : M unit :=
  λ w, (Ok tt, mkWorld (files w) (log w ++ [e])).
Definition file_exists (path : string) : M bool :=
  λ w, (Ok (bool_decide (is_Some (files w !! path))), w).
Definition read_csv (path : string) : M DataFrame :=
  λ w, match files w !! path with
       | Some df => (Ok df, w)
       | None => (Raise FileNotFoundError, w)
       end.
Definition to_csv (path : string) (df : DataFrame) : M unit :=
  λ w, (Ok tt, mkWorld (<[path := df]> (files w)) (log w)).

Record Args := mkArgs {
  skip_cultural : bool;
  force : bool
}.

Section Driver.

Variable float_of_str : string → option Qc.

(** The cultural scorer, an external process: from the model name and the
    files it finds, the files it leaves, or [None] for a non-zero exit. *)
Variable cultural_scorer :
  string → gmap string DataFrame → option (gmap string DataFrame).

Variable timestamp : string.

Definition cultural_summary (model : string) : string :=
  model +:+ "/cultural_metrics_" +:+ timestamp +:+ "_summary.csv".
Definition cultural_best_worst (model : string) : string :=
  model +:+ "/cultural_best_worst_" +:+ timestamp +:+ ".csv".

(** [run_cultural_metric]: [subprocess.run(cmd, check=True)]. *)
Definition run_cultural_metric (model : string) : M unit :=
  (emit (RunCultural model) ;;;
   λ w, match cultural_scorer model (files w) with
        | Some fs' => (Ok tt, mkWorld fs' (log w))
        | None => (Raise CalledProcessError, w)
        end)%drv.

(** The call [summarize_best_worst(summary_csv, output_csv)] on files. *)
Definition summarize_files (model summary_csv output_csv : string) : M unit :=
  (emit (Summarize model) ;;;
   df <- read_csv summary_csv ;;
   match summarize_best_worst float_of_str df with
   | Ok None => ret tt
   | Ok (Some combined) => to_csv output_csv combined
   | Raise e => raise e
   end)%drv.

(** One turn of the loop over [model_infos]. *)
Definition cultural_model (args : Args) (model : string) : M unit :=
  (cached <- file_exists (cultural_summary model) ;;
   if cached && negb (force args) then ret tt
   else
     run_cultural_metric model ;;;
     summarize_files model (cultural_summary model) (cultural_best_worst model))%drv.

Fixpoint for_each (body : string → M unit) (models : list string) : M unit :=
  match models with
  | [] => ret tt
  | m :: rest => (body m ;;; for_each body rest)%drv
  end.

(** [main] from [if not args.skip_cultural:] on. *)
Definition cultural_stage (args : Args) (models : list string) : M unit :=
  if negb (skip_cultural args) then for_each (cultural_model args) models
  else ret tt.

End Driver.

(** The calls of a model that is scored and then summarised. *)
Definition scored (model : string) : list event :=
  [RunCultural model; Summarize model].

(** ** What the summariser is meant to select

    A row counts for the group [k] with the value [q] when its group cell is
    [k] and its value cell is the number [q]. The row at [i] is the first
    extreme of the group when it counts with [q], no row that counts is
    strictly better, and every earlier row that counts is strictly worse. *)
Definition candidate (cols : list string) (group value : string) (k : cell)
    (row : list cell) (q : Qc) : Prop :=
  get cols row group = k ∧ get cols row value = Num q.

Definition first_extreme (prec : Qc → Qc → Prop) (cols : list string)
    (group value : string) (k : cell) (R : list (list cell))
    (i : nat) (q : Qc) : Prop :=
  (∃ row, R !! i = Some row ∧ candidate cols group value k row q) ∧
  ∀ j row' q', R !! j = Some row' → candidate cols group value k row' q' →
    ¬ prec q' q ∧ (j < i → prec q q').

(** The cell of a row under the column [c] once the summariser has coerced
    its numeric columns. *)
Definition coerced (float_of_str : string → option Qc) (cols : list string)
    (row : list cell) (c : string) : cell :=
  if bool_decide (c ∈ "num_questions" :: numeric_cols)
  then to_numeric float_of_str (get cols row c)
  else get cols row c.

(** The groups that have a row with a numeric value, in the order of
    [groupby]; the row kept for a group, the one at the index that [idxmax]
    or [idxmin] gives for it. *)
Definition scored_keys (df : DataFrame) (group value : string) : list cell :=
  filter (λ k, is_Some (idx_extreme gt df group value k)) (group_keys df group).

Definition extreme_row (better : Qc → Qc → bool) (df : DataFrame)
    (group value : string) (k : cell) : list cell :=
  default [] (idx_extreme better df group value k ≫= λ i, rows df !! i).

(** The table the summariser is meant to write for a prepared table whose
    group column is the [j]-th: one record per scored group, the row of the
    greatest value under the [best_] names, with the group under its own
    name, followed by the row of the least value under the [worst_] names,
    its group cell left out. *)
Definition best_worst_table (df : DataFrame) (j : nat) : DataFrame :=
  mkDF
    (fmap (λ c, if String.eqb c "group_id" then "group_id" else "best_" +:+ c)
          (columns df)
       ++ delete j (fmap (λ c, "worst_" +:+ c) (columns df)))
    (fmap (λ k, extreme_row gt df "group_id" "f1" k
                  ++ delete j (extreme_row lt df "group_id" "f1" k))
          (scored_keys df "group_id" "f1")).

(** ** Sample inputs *)

(** What [resolve()] returns where no name met on the way is a symbolic
    link: empty names and [.] are dropped, [..] drops the name before it,
    and a relative path starts from the working directory. *)
Fixpoint normal_names (resolved rest : list string) : list string :=
  match rest with
  | [] => resolved
  | name :: rest' =>
      if negb (PathLib.is_name name) then normal_names resolved rest'
      else if String.eqb name ".." then normal_names (removelast resolved) rest'
      else normal_names (resolved ++ [name]) rest'
  end.

Definition resolve_plain (cwd : list string) (p : PathLib.Path)
  : result PathLib.Path :=
  Ok (PathLib.mkPath "/"
        (normal_names (if PathLib.is_absolute p then [] else cwd) (PathLib.parts p))).

(** The same on a file system whose one link is [/data/model/loop], a link
    to itself, under CPython up to 3.12: a path that still goes through
    the link once its [..] are taken out makes [resolve()] raise. *)
Definition resolve_loop (cwd : list string) (p : PathLib.Path)
  : result PathLib.Path :=
  let names :=
    normal_names (if PathLib.is_absolute p then [] else cwd) (PathLib.parts p) in
  if bool_decide (["data"; "model"; "loop"] `prefix_of` names)
  then Raise RuntimeError
  else Ok (PathLib.mkPath "/" names).

(** The working directory of the samples. *)
Definition cwd_sample : list string := ["home"; "user"].

(** The sample tables below hold no numeric cell, so the text of a number is
    never asked for. *)
Definition no_numbers : Qc → string := λ _, "".

(** The only number text the sample tables spell. *)
Definition float_half (s : string) : option Qc :=
  if String.eqb s "0.5" then Some (Q2Qc (1 # 2)) else None.

Definition model_dir_sample : PathLib.Path := PathLib.parse "/data/model".


Definition df_edits_header_only : DataFrame :=
  mkDF ["Prompt"; "Edit_1"; "Edit_2"] [].

(** A metrics table with a group and an f1 value and no other metric. *)
Definition df_no_accuracy : DataFrame :=
  mkDF ["group_id"; "f1"] [[Str "A"; Num (Q2Qc (1 # 2))]].

(** A metrics table with two groups, the second of two rows that tie. *)
Definition df_metrics : DataFrame :=
  mkDF ["group_id"; "accuracy"; "precision"; "recall"; "f1"]
    [[Str "B"; Str "0.5"; Str "0.5"; Str "0.5"; Str "0.5"];
     [Str "A"; Str "0.5"; Str "x"; Str "0.5"; Str "0.5"];
     [Str "A"; Str "x"; Str "0.5"; Str "0.5"; Str "0.5"]].

(** A metrics table without a group column. *)
Definition df_no_group : DataFrame := mkDF ["f1"] [[Num (Q2Qc (1 # 2))]].

(** A scorer that exits with an error, one that exits normally and writes
    nothing, and a disk that holds the summary of the model [m] for the
    time stamp [T]. *)
Definition scorer_fails : string → gmap string DataFrame → option (gmap string DataFrame) :=
  λ _ _, None.
Definition scorer_idle : string → gmap string DataFrame → option (gmap string DataFrame) :=
  λ _ fs, Some fs.
Definition world_blank : World := mkWorld ∅ [].
Definition world_cached : World :=
  mkWorld {[ cultural_summary "T" "m" := mkDF ["group_id"; "f1"] [] ]} [].

(** A table whose second row has a step path through the link [loop]. *)
Definition df_loop : DataFrame :=
  mkDF ["prompt"; "step0"]
    [[Str "a cat"; Str "a.png"]; [Str "a dog"; Str "loop/b.png"];
     [Str "a fox"; Str "c.png"]].

(** A row whose prompt is made of spaces. *)
Definition df_blank_prompt : DataFrame :=
  mkDF ["prompt"; "step0"] [[Str "   "; Str "a.png"]].


(** * Properties *)

Section find_column_facts.

Lemma lookup_foldl_insert (columns : list string) (m : gmap string string) k :
  foldl (λ m col, <[norm col := col]> m) m columns !! k =
  match last (filter (λ h, norm h = k) columns) with
  | Some h => Some h
  | None => m !! k
  end.
Proof.
  revert m. induction columns as [|h columns IH]; intros m; simpl; [done|].
  rewrite IH. rewrite filter_cons. case_decide as Hk.
  - destruct (filter _ columns) as [|h' t] eqn:E; simpl.
    + subst k. by rewrite lookup_insert_eq.
    + destruct (last (h' :: t)) eqn:E2; [done|]. by apply last_None in E2.
  - destruct (last _); [done|]. by rewrite lookup_insert_ne.
Qed.

Lemma lookup_of_spec columns k :
  lookup_of columns !! k = last (filter (λ h, norm h = k) columns).
Proof.
  unfold lookup_of. rewrite lookup_foldl_insert, lookup_empty.
  by destruct (last _).
Qed.

Lemma last_filter_None {A} (P : A → Prop) `{!∀ x, Decision (P x)} (l : list A) :
  last (filter P l) = None ↔ ∀ x, x ∈ l → ¬ P x.
Proof.
  rewrite last_None. split.
  - intros E x Hx HP.
    assert (x ∈ filter P l) as Hin by (apply list_elem_of_filter; done).
    rewrite E in Hin. by apply not_elem_of_nil in Hin.
  - intros Hall. destruct (filter P l) as [|y t] eqn:E; [done|].
    assert (y ∈ filter P l) as Hin by (rewrite E; left).
    apply list_elem_of_filter in Hin as [HP Hy]. by destruct (Hall y Hy).
Qed.

Lemma last_filter_Some {A} (P : A → Prop) `{!∀ x, Decision (P x)} (l : list A) y :
  last (filter P l) = Some y → P y ∧ y ∈ l.
Proof.
  intros E. apply last_Some_elem_of in E.
  by apply list_elem_of_filter in E.
Qed.

Lemma lookup_of_None columns k :
  lookup_of columns !! k = None ↔ k ∉ norm <$> columns.
Proof.
  rewrite lookup_of_spec, last_filter_None, list_elem_of_fmap. split.
  - intros H (h & -> & Hh). by apply (H h).
  - intros H h Hh E. apply H. by exists h.
Qed.

Lemma find_column_eq columns candidates :
  find_column columns candidates =
  last_header_of_first_candidate columns candidates.
Proof.
  unfold find_column, last_header_of_first_candidate.
  induction candidates as [|c candidates IH]; simpl; [done|].
  rewrite filter_cons. case_decide as Hc.
  - simpl. rewrite lookup_of_spec.
    destruct (last _) as [h|] eqn:E; [done|].
    rewrite last_filter_None in E. apply list_elem_of_fmap in Hc as (h & Hh & Hin).
    by destruct (E h Hin).
  - apply lookup_of_None in Hc. by rewrite Hc.
Qed.

Lemma find_column_None columns candidates :
  find_column columns candidates = None ↔
  ∀ h c, h ∈ columns → c ∈ candidates → norm h ≠ norm c.
Proof.
  unfold find_column.
  induction candidates as [|c candidates IH]; simpl.
  - split; [|done]. intros _ h c _ Hc. by apply not_elem_of_nil in Hc.
  - destruct (lookup_of columns !! norm c) as [h|] eqn:E.
    + split; [done|]. intros H. rewrite lookup_of_spec in E.
      apply last_filter_Some in E as [E Hin]. by destruct (H h c Hin (list_elem_of_here _ _)).
    + rewrite IH. apply lookup_of_None in E. split.
      * intros H h c' Hh Hc'. apply elem_of_cons in Hc' as [->|Hc']; [|by apply H].
        intros Eq. apply E, list_elem_of_fmap. by exists h.
      * intros H h c' Hh Hc'. apply H; [done|by right].
Qed.

Lemma find_column_Some columns candidates h :
  find_column columns candidates = Some h →
  h ∈ columns ∧ ∃ c, c ∈ candidates ∧ norm h = norm c.
Proof.
  unfold find_column.
  induction candidates as [|c candidates IH]; simpl; [done|].
  destruct (lookup_of columns !! norm c) as [h'|] eqn:E.
  - intros [= ->]. rewrite lookup_of_spec in E.
    apply last_filter_Some in E as [E Hin]. split; [done|].
    exists c. split; [left|done].
  - intros H. destruct (IH H) as (Hin & c' & Hc' & Eq). split; [done|].
    exists c'. split; [by right|done].
Qed.

End find_column_facts.

(** ** Facts about the standardiser *)

Section standardiser_facts.

Lemma find_column_truthy columns candidates h :
  Forall (λ c, norm c ≠ "") candidates →
  find_column columns candidates = Some h → Py.truthy (Some h) = true.
Proof.
  intros Hc Hf. apply find_column_Some in Hf as (_ & c & Hin & Hn).
  rewrite Forall_forall in Hc. specialize (Hc c Hin).
  destruct h; [|done]. by rewrite <- Hn in Hc.
Qed.

Lemma candidates_nonblank idx :
  idx < 10 → Forall (λ c, norm c ≠ "") (candidates_of_step idx).
Proof.
  intros Hlt. do 10 (destruct idx as [|idx]; [by repeat constructor|]). lia.
Qed.

Lemma prompt_candidates_nonblank : Forall (λ c, norm c ≠ "") prompt_candidates.
Proof. by repeat constructor. Qed.

Lemma foldl_add_step columns (l : list nat) (sc : gmap nat string) idx :
  (∀ i, i ∈ l → 0 < i < 10) →
  foldl (add_step columns) sc l !! idx =
  if decide (idx ∈ l) then
    match find_column columns (candidates_of_step idx) with
    | Some col => Some col
    | None => sc !! idx
    end
  else sc !! idx.
Proof.
  revert sc. induction l as [|i l IH]; intros sc Hl; simpl.
  - destruct (decide (idx ∈ [])) as [H|H]; [by apply not_elem_of_nil in H|done].
  - rewrite IH by (intros j Hj; apply Hl; by right).
    assert (0 < i < 10) as Hi by (apply Hl; left).
    assert (candidates_of_step i = step_candidates i) as Ei by (destruct i; [lia|done]).
    assert (∀ j, add_step columns sc i !! j =
              if decide (j = i) then
                match find_column columns (candidates_of_step i) with
                | Some col => Some col | None => sc !! j end
              else sc !! j) as Hadd.
    { intros j. unfold add_step. rewrite Ei.
      destruct (find_column columns (step_candidates i)) as [col|] eqn:Ef.
      - rewrite <- Ei in Ef.
        rewrite (find_column_truthy _ _ _ (candidates_nonblank i (proj2 Hi)) Ef).
        cbv beta iota.
        destruct (decide (j = i)) as [->|Hne];
          [by rewrite lookup_insert_eq|by rewrite lookup_insert_ne].
      - by destruct (decide (j = i)). }
    destruct (decide (idx ∈ l)) as [Hin|Hnin].
    + rewrite decide_True by (by right).
      destruct (find_column columns (candidates_of_step idx)) eqn:Efi; [done|].
      rewrite Hadd. destruct (decide (idx = i)) as [->|Hne]; [|done].
      by rewrite Efi.
    + rewrite Hadd. destruct (decide (idx = i)) as [->|Hne].
      * rewrite decide_True by left. done.
      * rewrite decide_False; [done|]. intros [?|?]%elem_of_cons; done.
Qed.

Lemma step_columns_lookup columns idx :
  step_columns_of columns !! idx =
  if decide (idx < 10) then find_column columns (candidates_of_step idx) else None.
Proof.
  unfold step_columns_of. rewrite foldl_add_step.
  2:{ intros i Hi. apply elem_of_seq in Hi. lia. }
  assert ((match find_column columns step0_candidates with
           | Some col => if Py.truthy (Some col) then ({[0 := col]} : gmap nat string) else ∅
           | None => ∅ end) !! idx =
          if decide (idx = 0) then find_column columns step0_candidates else None) as H0.
  { destruct (find_column columns step0_candidates) as [col|] eqn:Ef.
    - rewrite (find_column_truthy _ _ _ (candidates_nonblank 0 ltac:(lia)) Ef).
      cbv beta iota.
      destruct (decide (idx = 0)) as [->|Hne];
        [by rewrite lookup_singleton_eq|by rewrite lookup_singleton_ne].
    - rewrite lookup_empty. by destruct (decide (idx = 0)). }
  rewrite H0. destruct (decide (idx ∈ seq 1 9)) as [Hin|Hnin].
  - apply elem_of_seq in Hin. rewrite (decide_True (P := idx < 10)) by lia.
    destruct (find_column columns (candidates_of_step idx)); [done|].
    by rewrite (decide_False (P := idx = 0)) by lia.
  - rewrite elem_of_seq in Hnin. destruct (decide (idx = 0)) as [->|Hne].
    + by rewrite (decide_True (P := 0 < 10)) by lia.
    + by rewrite (decide_False (P := idx < 10)) by lia.
Qed.

Lemma detected_steps_spec columns idx :
  idx ∈ detected_steps columns ↔ is_Some (step_columns_of columns !! idx).
Proof.
  unfold detected_steps. rewrite list_elem_of_filter, elem_of_seq, step_columns_lookup.
  destruct (decide (idx < 10)) as [H|H].
  - split; [by intros [? _]|]. intros ?. split; [done|lia].
  - split; [intros [_ ?]; lia|]. by intros [? ?].
Qed.

Lemma step_columns_empty_iff columns :
  step_columns_of columns = ∅ ↔ detected_steps columns = [].
Proof.
  rewrite map_empty. split.
  - intros H. apply elem_of_nil_inv. intros idx Hin.
    apply detected_steps_spec in Hin. rewrite H in Hin. by destruct Hin.
  - intros H idx. apply eq_None_not_Some. intros Hs.
    apply detected_steps_spec in Hs. rewrite H in Hs. by apply not_elem_of_nil in Hs.
Qed.

Lemma max_list_ext (l1 l2 : list nat) :
  (∀ x, x ∈ l1 ↔ x ∈ l2) → max_list l1 = max_list l2.
Proof.
  intros H. destruct l1 as [|a l1]; destruct l2 as [|b l2].
  - done.
  - assert (b ∈ []) as Hb by (apply H; left). by apply not_elem_of_nil in Hb.
  - assert (a ∈ []) as Ha by (apply H; left). by apply not_elem_of_nil in Ha.
  - assert (max_list (a :: l1) ∈ b :: l2) as H1 by (apply H, max_list_elem_of; done).
    assert (max_list (b :: l2) ∈ a :: l1) as H2 by (apply H, max_list_elem_of; done).
    apply max_list_elem_of_le in H1, H2. lia.
Qed.

Lemma max_key_detected columns :
  max_key (step_columns_of columns) = max_list (detected_steps columns).
Proof.
  unfold max_key. apply max_list_ext. intros idx.
  rewrite detected_steps_spec, list_elem_of_fmap. split.
  - intros ([i c] & -> & Hin). apply elem_of_map_to_list in Hin. by exists c.
  - intros [c Hc]. exists (idx, c). split; [done|]. by apply elem_of_map_to_list.
Qed.

Lemma detected_steps_lt columns idx : idx ∈ detected_steps columns → idx < 10.
Proof.
  unfold detected_steps. rewrite list_elem_of_filter, elem_of_seq. lia.
Qed.

Lemma lstrip_empty s : Py.lstrip s = "" ↔ Py.has_ink s = false.
Proof.
  induction s as [|a s IH]; simpl; [done|].
  destruct (Py.is_space a); simpl; [done|]. split; discriminate.
Qed.

Lemma rstrip_ink s : Py.has_ink s = true → Py.rstrip s ≠ "".
Proof.
  induction s as [|a s IH]; simpl; [done|].
  destruct (Py.rstrip s) eqn:E; [|done].
  destruct (Py.is_space a); simpl; [|done]. intros H. by apply IH in H.
Qed.

Lemma has_ink_lstrip s : Py.has_ink (Py.lstrip s) = Py.has_ink s.
Proof.
  induction s as [|a s IH]; simpl; [done|].
  destruct (Py.is_space a) eqn:E; simpl; [done|]. by rewrite E.
Qed.

Lemma strip_empty s : Py.strip s = "" ↔ Py.has_ink s = false.
Proof.
  unfold Py.strip. split.
  - intros H. destruct (Py.has_ink s) eqn:E; [|done].
    rewrite <- has_ink_lstrip in E. by apply rstrip_ink in E.
  - intros H. apply lstrip_empty in H. by rewrite H.
Qed.

End standardiser_facts.


(** ** Facts about loops that may raise *)

Section loop_facts.

Context {A B : Type}.

Lemma collect_Ok (f : A → result B) l ys :
  collect f l = Ok ys ↔ Forall2 (λ x y, f x = Ok y) l ys.
Proof.
  revert ys. induction l as [|x l IH]; intros ys; simpl.
  - split; [intros [= <-]; constructor|]. by intros ->%Forall2_nil_inv_l.
  - destruct (f x) as [y|e] eqn:Ex.
    + destruct (collect f l) as [ys'|e] eqn:El.
      * split.
        -- intros [= <-]. constructor; [done|]. by apply IH.
        -- intros (y' & ys'' & Hy & Hys & ->)%Forall2_cons_inv_l.
           apply IH in Hys. congruence.
      * split; [done|].
        intros (y' & ys'' & Hy & Hys & ->)%Forall2_cons_inv_l.
        apply IH in Hys. done.
    + split; [done|].
      intros (y' & ys'' & Hy & Hys & ->)%Forall2_cons_inv_l. congruence.
Qed.

Lemma collect_Raise (f : A → result B) l e :
  collect f l = Raise e → ∃ x, x ∈ l ∧ f x = Raise e.
Proof.
  induction l as [|x l IH]; simpl; [done|].
  destruct (f x) as [y|e'] eqn:Ex.
  - destruct (collect f l) as [ys'|e'] eqn:El; [done|].
    intros [= <-]. destruct IH as (x' & Hx' & He); [done|].
    exists x'. split; [by right|done].
  - intros [= <-]. exists x. split; [left|done].
Qed.

Lemma collect_is_ok (f : A → result B) l :
  is_ok (collect f l) = true ↔ ∀ x, x ∈ l → is_ok (f x) = true.
Proof.
  induction l as [|x l IH]; simpl.
  - split; [|done]. intros _ x Hx. by apply elem_of_nil in Hx.
  - destruct (f x) as [y|e] eqn:Ex.
    + destruct (collect f l) as [ys'|e] eqn:El; simpl.
      * split; [|done]. intros _ x' [->|Hx']%elem_of_cons; [by rewrite Ex|].
        by apply IH.
      * split; [done|]. intros Hall. apply IH. intros x' Hx'. apply Hall. by right.
    + simpl. split; [done|]. intros Hall.
      specialize (Hall x (list_elem_of_here _ _)). by rewrite Ex in Hall.
Qed.

Lemma collect_ext (f g : A → result B) l :
  (∀ x, x ∈ l → f x = g x) → collect f l = collect g l.
Proof.
  induction l as [|x l IH]; intros H; simpl; [done|].
  rewrite (H x) by left. rewrite IH; [done|]. intros y Hy. apply H. by right.
Qed.

Lemma write_rows_ext (f g : A → result (list string)) l :
  (∀ x, x ∈ l → f x = g x) → write_rows f l = write_rows g l.
Proof.
  induction l as [|x l IH]; intros H; simpl; [done|].
  rewrite (H x) by left. rewrite IH; [done|]. intros y Hy. apply H. by right.
Qed.

(** The records written are those of the first rows, in order; the loop
    ends at the first row whose record cannot be made, with its error, or
    after the last row. *)
Lemma write_rows_spec (record : A → result (list string)) rows :
  Forall2 (λ row r, record row = Ok r)
    (take (length (write_rows record rows).1) rows) (write_rows record rows).1 ∧
  match (write_rows record rows).2 with
  | None => length (write_rows record rows).1 = length rows
  | Some e =>
      ∃ row, rows !! length (write_rows record rows).1 = Some row ∧
             record row = Raise e
  end.
Proof.
  induction rows as [|row rows IH]; simpl.
  - split; [constructor|done].
  - destruct (record row) as [r|e] eqn:Er; simpl.
    + destruct (write_rows record rows) as [written stopped]. simpl in *.
      destruct IH as [IH1 IH2]. split; [by constructor|].
      destruct stopped; [done|]. by rewrite IH2.
    + split; [constructor|]. by exists row.
Qed.

End loop_facts.

(** ** Facts about a run of the standardiser *)

Section standardiser_run.
Variable str_num : Qc → string.
Variable resolve : PathLib.Path → result PathLib.Path.
Variable dir : PathLib.Path.

Lemma editing_candidates_nonblank : Forall (λ c, norm c ≠ "") editing_candidates.
Proof. by repeat constructor. Qed.

Lemma step_cell_expected columns row idx :
  idx < 10 →
  step_cell str_num resolve dir columns (step_columns_of columns) row idx
    = expected_step str_num resolve dir columns row idx.
Proof.
  intros Hlt. unfold step_cell, expected_step.
  rewrite step_columns_lookup, decide_True by done.
  destruct (find_column columns (candidates_of_step idx)) as [src|] eqn:Ef; [|done].
  rewrite (find_column_truthy _ _ _ (candidates_nonblank idx Hlt) Ef).
  by destruct (get columns row src).
Qed.

Lemma record_of_expected columns pcol K row :
  K < 10 →
  record_of str_num resolve dir columns pcol
    (find_column columns editing_candidates) (step_columns_of columns) K row
    = expected_record str_num resolve dir columns pcol K row.
Proof.
  intros HK. unfold record_of, expected_record, expected_editing.
  rewrite (collect_ext _ (expected_step str_num resolve dir columns row)).
  2:{ intros idx Hidx. apply step_cell_expected.
      apply elem_of_seq in Hidx. lia. }
  destruct (collect _ _) as [cells|e]; [|done].
  destruct (find_column columns editing_candidates) as [col|] eqn:Ee; [|done].
  rewrite (find_column_truthy _ _ _ editing_candidates_nonblank Ee).
  by destruct (get columns row col).
Qed.

Lemma max_detected_lt columns :
  detected_steps columns ≠ [] → max_list (detected_steps columns) < 10.
Proof. intros H. by apply (detected_steps_lt columns), max_list_elem_of. Qed.

(** A run on a table that has a row, a prompt column and a step column, the
    output file being opened: the header is written, then the rows. *)
Lemma standardise_run df pcol :
  rows df ≠ [] →
  find_column (columns df) prompt_candidates = Some pcol →
  detected_steps (columns df) ≠ [] →
  standardise_model_csv str_num resolve dir (Some (Ok df)) None =
    (Some (mkCSV ("prompt" :: "editing_prompt"
                    :: (step_field <$> seq 0 (S (max_list (detected_steps (columns df))))))
                 (write_rows (expected_record str_num resolve dir (columns df) pcol
                                (max_list (detected_steps (columns df))))
                             (rows df)).1),
     match (write_rows (expected_record str_num resolve dir (columns df) pcol
                          (max_list (detected_steps (columns df))))
                       (rows df)).2 with
     | Some e => Raise e
     | None => Ok (max_list (detected_steps (columns df)))
     end).
Proof.
  intros Hrows Hp Hs. unfold standardise_model_csv.
  assert (empty df = false) as ->.
  { unfold empty. apply find_column_Some in Hp as [Hin _].
    destruct (columns df); [by apply not_elem_of_nil in Hin|]. by destruct (rows df). }
  rewrite Hp. rewrite (find_column_truthy _ _ _ prompt_candidates_nonblank Hp).
  cbv beta iota. simpl negb. cbv beta iota.
  rewrite bool_decide_eq_false_2 by (by rewrite step_columns_empty_iff).
  rewrite max_key_detected.
  rewrite (write_rows_ext _ (expected_record str_num resolve dir (columns df) pcol
                               (max_list (detected_steps (columns df))))).
  2:{ intros row _. apply record_of_expected. by apply max_detected_lt. }
  by destruct (write_rows _ _).
Qed.


End standardiser_run.
(** ** The column resolver *)

(** C6, as stated, fails: with the headers [text, prompt] and the candidates
    [prompt, text] the first header that equals a candidate is [text], and
    the resolver returns [prompt]. *)
Lemma find_column_not_first_header :
  find_column ["text"; "prompt"] ["prompt"; "text"] = Some "prompt" ∧
  first_matching_header ["text"; "prompt"] ["prompt"; "text"] = Some "text" ∧
  find_column ["text"; "prompt"] ["prompt"; "text"]
    ≠ first_matching_header ["text"; "prompt"] ["prompt"; "text"].
Proof. vm_compute. split; [done|]. split; [done|]. discriminate. Qed.

(** C6, amended: the resolver returns, for the first candidate in candidate
    order that some header equals after lower-casing and trimming, the last
    header that equals it; it returns nothing exactly when no header equals
    any candidate that way, and whatever it returns is a header equal to a
    candidate that way, so never a header that merely contains one. *)
Theorem find_column_candidate_order columns candidates :
  find_column columns candidates
    = last_header_of_first_candidate columns candidates ∧
  (find_column columns candidates = None ↔
     ∀ h c, h ∈ columns → c ∈ candidates → norm h ≠ norm c) ∧
  (∀ h, find_column columns candidates = Some h →
     h ∈ columns ∧ ∃ c, c ∈ candidates ∧ norm h = norm c).
Proof.
  split; [apply find_column_eq|]. split; [apply find_column_None|].
  intros h. apply find_column_Some.
Qed.


(** ** The path resolver *)

Section path_facts.
Import PathLib.


Lemma split_sep_cons s : ∃ n ns, split_sep s = n :: ns.
Proof.
  induction s as [|a s (n & ns & IH)]; simpl; [by eauto|].
  destruct (Ascii.eqb a "/"); [by eauto|]. rewrite IH. by eauto.
Qed.





Lemma filter_is_name_idem names :
  List.filter is_name (List.filter is_name names) = List.filter is_name names.
Proof.
  induction names as [|n names IH]; simpl; [done|].
  destruct (is_name n) eqn:E; simpl; [|done]. by rewrite E, IH.
Qed.










End path_facts.

Section resolve_path_facts.
Import PathLib.




End resolve_path_facts.

Section sample_resolver_facts.
Import PathLib.

Lemma Forall_removelast {A} (P : A → Prop) (l : list A) :
  Forall P l → Forall P (removelast l).
Proof.
  induction 1 as [|x l Hx Hl IH]; simpl; [constructor|].
  destruct l; [constructor|]. by constructor.
Qed.

Lemma is_name_proper n :
  is_name n = true → String.eqb n ".." = false → proper_name n.
Proof.
  unfold is_name. intros H1 H2.
  apply andb_prop in H1 as [Ha Hb].
  apply negb_true_iff in Ha, Hb.
  apply String.eqb_neq in Ha, Hb, H2. done.
Qed.

Lemma normal_names_proper resolved rest :
  Forall proper_name resolved → Forall proper_name (normal_names resolved rest).
Proof.
  revert resolved. induction rest as [|name rest IH]; intros resolved Hres;
    simpl; [done|].
  destruct (is_name name) eqn:Hn; simpl; [|by apply IH].
  destruct (String.eqb name "..") eqn:Hd; [by apply IH, Forall_removelast|].
  apply IH, Forall_app. split; [done|].
  constructor; [by apply is_name_proper|constructor].
Qed.


Lemma resolve_loop_canonical cwd :
  Forall proper_name cwd → resolves_to_canonical (resolve_loop cwd).
Proof.
  intros Hcwd p p'. unfold resolve_loop. case_bool_decide; [done|].
  intros [= <-]. split; [done|]. cbn [parts].
  apply normal_names_proper. destruct (is_absolute p); [constructor|done].
Qed.


End sample_resolver_facts.




(** ** The standardiser *)

Section standardiser_outcome.
Variable str_num : Qc → string.
Variable resolve : PathLib.Path → result PathLib.Path.
Variable dir : PathLib.Path.

Lemma write_rows_None {A} (record : A → result (list string)) rows :
  (write_rows record rows).2 = None ↔ ∀ row, row ∈ rows → is_ok (record row) = true.
Proof.
  induction rows as [|row rows IH]; simpl.
  - split; [|done]. intros _ row Hrow. by apply elem_of_nil in Hrow.
  - destruct (record row) as [r|e] eqn:Er; simpl.
    + destruct (write_rows record rows) as [written stopped]. simpl in *.
      rewrite IH. split.
      * intros Hall row' [->|Hrow']%elem_of_cons; [by rewrite Er|by apply Hall].
      * intros Hall row' Hrow'. apply Hall. by right.
    + split; [done|]. intros Hall.
      specialize (Hall row (list_elem_of_here _ _)). by rewrite Er in Hall.
Qed.

Lemma expected_record_is_ok columns pcol K row :
  is_ok (expected_record str_num resolve dir columns pcol K row) = true ↔
  ∀ idx, (idx ≤ K)%nat → is_ok (expected_step str_num resolve dir columns row idx) = true.
Proof.
  unfold expected_record.
  pose proof (collect_is_ok (expected_step str_num resolve dir columns row)
                (seq 0 (S K))) as Hc.
  destruct (collect _ _) as [cells|e]; cbn [is_ok] in *.
  - split; [|done]. intros _ idx Hidx. apply Hc; [done|].
    apply elem_of_seq. lia.
  - split; [done|]. intros Hall. apply Hc. intros idx Hidx. apply Hall.
    apply elem_of_seq in Hidx. lia.
Qed.

Lemma expected_record_Raise columns pcol K row e :
  expected_record str_num resolve dir columns pcol K row = Raise e →
  ∃ idx, (idx ≤ K)%nat ∧ expected_step str_num resolve dir columns row idx = Raise e.
Proof.
  unfold expected_record.
  destruct (collect _ _) as [cells|e'] eqn:Ec; [done|]. intros [= <-].
  apply collect_Raise in Ec as (idx & Hidx & He). exists idx.
  split; [|done]. apply elem_of_seq in Hidx. lia.
Qed.

Lemma expected_record_Ok columns pcol K row rec :
  expected_record str_num resolve dir columns pcol K row = Ok rec →
  ∃ cells,
    rec = Py.strip (str_cell str_num (get columns row pcol))
            :: expected_editing str_num columns row :: cells ∧
    length cells = S K ∧
    ∀ idx cell, cells !! idx = Some cell →
      expected_step str_num resolve dir columns row idx = Ok cell.
Proof.
  unfold expected_record.
  destruct (collect _ _) as [cells|e'] eqn:Ec; [|done]. intros [= <-].
  exists cells. split; [done|]. apply collect_Ok in Ec.
  split.
  - apply Forall2_length in Ec. by rewrite length_seq in Ec.
  - intros idx cell Hcell.
    destruct (Forall2_lookup_r _ _ _ _ _ Ec Hcell) as (idx' & Hidx' & He).
    apply lookup_seq in Hidx' as [-> _]. done.
Qed.




(** The outcome of a run that has opened its output file. *)
Lemma standardise_outcome df pcol :
  rows df ≠ [] →
  find_column (columns df) prompt_candidates = Some pcol →
  detected_steps (columns df) ≠ [] →
  ∃ out outcome,
    standardise_model_csv str_num resolve dir (Some (Ok df)) None = (Some out, outcome) ∧
    fieldnames out
      = "prompt" :: "editing_prompt"
          :: (step_field <$> seq 0 (S (max_list (detected_steps (columns df))))) ∧
    Forall2 (λ row rec,
               expected_record str_num resolve dir (columns df) pcol
                 (max_list (detected_steps (columns df))) row = Ok rec)
      (take (length (records out)) (rows df)) (records out) ∧
    match outcome with
    | Ok k =>
        k = max_list (detected_steps (columns df)) ∧
        length (records out) = length (rows df)
    | Raise e =>
        ∃ row, rows df !! length (records out) = Some row ∧
          expected_record str_num resolve dir (columns df) pcol
            (max_list (detected_steps (columns df))) row = Raise e
    end ∧
    (is_ok outcome = true ↔
     ∀ row idx, row ∈ rows df → (idx ≤ max_list (detected_steps (columns df)))%nat →
       is_ok (expected_step str_num resolve dir (columns df) row idx) = true).
Proof.
  intros Hrows Hp Hs. rewrite (standardise_run _ _ _ df pcol) by done.
  set (K := max_list (detected_steps (columns df))).
  set (record := expected_record str_num resolve dir (columns df) pcol K).
  destruct (write_rows_spec record (rows df)) as [Hw Hstop].
  pose proof (write_rows_None record (rows df)) as Hnone.
  do 2 eexists. split; [reflexivity|]. cbn [fieldnames records].
  split; [done|]. split; [done|].
  destruct (write_rows record (rows df)).2 as [e|]; cbn [is_ok].
  - split; [done|]. split; [done|]. intros Hall.
    assert (Some e = None) as Hcontra; [|done].
    apply Hnone. intros row Hrow. apply expected_record_is_ok.
    intros idx Hidx. by apply Hall.
  - split; [done|]. split; [|done]. intros _ row idx Hrow Hidx.
    assert (is_ok (record row) = true) as Hok by (by apply Hnone).
    by eapply expected_record_is_ok in Hok.
Qed.

End standardiser_outcome.

Section standardiser_cases.
Variable str_num : Qc → string.
Variable resolve : PathLib.Path → result PathLib.Path.
Variable dir : PathLib.Path.


Lemma records_of_rows df pcol out i rec :
  Forall2 (λ row rec,
             expected_record str_num resolve dir (columns df) pcol
               (max_list (detected_steps (columns df))) row = Ok rec)
    (take (length (records out)) (rows df)) (records out) →
  records out !! i = Some rec →
  ∃ row, rows df !! i = Some row ∧
    expected_record str_num resolve dir (columns df) pcol
      (max_list (detected_steps (columns df))) row = Ok rec.
Proof.
  intros Hall Hrec.
  destruct (Forall2_lookup_r _ _ _ _ _ Hall Hrec) as (row & Hrow & He).
  apply lookup_take_Some in Hrow as [Hrow _]. by exists row.
Qed.

End standardiser_cases.







(** C9, as stated, fails: with a prompt column and detected step columns
    and no data row there is no canonical file whose rows could be counted,
    the standardiser raises. *)
Lemma standardise_edits_header_only_raises :
  find_column (columns df_edits_header_only) prompt_candidates = Some "Prompt" ∧
  detected_steps (columns df_edits_header_only) = [1; 2] ∧
  standardise_model_csv no_numbers (resolve_plain cwd_sample) model_dir_sample
    (Some (Ok df_edits_header_only)) None
    = (None, Raise (ValueError "No rows found")).
Proof. vm_compute. done. Qed.

(** C9, amended: for a source with at least one data row, a prompt column
    and a detected step column, the output file being opened, the records
    written are those of the first rows of the source, one for each and in
    their order; the standardiser returns exactly when it has written as
    many records as the source has rows, which is when every step path can
    be resolved; when it raises, the rows from the first whose step path
    cannot be resolved on have no record. *)
Theorem standardise_row_count str_num resolve model_dir df pcol :
  rows df ≠ [] →
  find_column (columns df) prompt_candidates = Some pcol →
  detected_steps (columns df) ≠ [] →
  let K := max_list (detected_steps (columns df)) in
  ∃ out outcome,
    standardise_model_csv str_num resolve model_dir (Some (Ok df)) None
      = (Some out, outcome) ∧
    (∀ i rec, records out !! i = Some rec →
       ∃ row, rows df !! i = Some row ∧
         expected_record str_num resolve model_dir (columns df) pcol K row = Ok rec) ∧
    (length (records out) ≤ length (rows df))%nat ∧
    (is_ok outcome = true ↔ length (records out) = length (rows df)) ∧
    (is_ok outcome = true ↔
     ∀ row idx, row ∈ rows df → (idx ≤ K)%nat →
       is_ok (expected_step str_num resolve model_dir (columns df) row idx) = true) ∧
    (∀ e, outcome = Raise e →
       ∃ row, rows df !! length (records out) = Some row ∧
         expected_record str_num resolve model_dir (columns df) pcol K row = Raise e).
Proof.
  intros Hrows Hp Hs K.
  destruct (standardise_outcome str_num resolve model_dir df pcol Hrows Hp Hs)
    as (out & outcome & Hrun & Hfields & Hall & Hout & Hiff).
  exists out, outcome. split; [done|]. split; [|split; [|split; [|split]]].
  - intros i rec Hrec. by eapply records_of_rows.
  - destruct outcome as [k|e].
    + destruct Hout as [_ ->]. done.
    + destruct Hout as (row & Hrow & _). apply lookup_lt_Some in Hrow. lia.
  - destruct outcome as [k|e]; cbn [is_ok].
    + by destruct Hout as [_ ->].
    + destruct Hout as (row & Hrow & _). apply lookup_lt_Some in Hrow.
      split; [done|lia].
  - done.
  - intros e ->. done.
Qed.

Lemma standardise_row_count_witness :
  ∃ out outcome,
    standardise_model_csv no_numbers (resolve_loop cwd_sample) model_dir_sample
      (Some (Ok df_loop)) None = (Some out, outcome) ∧
    (length (records out) ≤ 3)%nat ∧
    (is_ok outcome = true ↔ length (records out) = 3%nat).
Proof.
  destruct (standardise_row_count no_numbers (resolve_loop cwd_sample)
              model_dir_sample df_loop "prompt")
    as (out & outcome & Hrun & _ & Hle & Hiff & _);
    [discriminate|reflexivity|vm_compute; discriminate|].
  exists out, outcome. split; [exact Hrun|]. split; [exact Hle|exact Hiff].
Defined.

(** C8, as stated, fails: a source the standardiser accepts, whose prompt
    cell holds only spaces, gives a row with an empty prompt. *)
Lemma standardise_blank_prompt_emitted :
  standardise_model_csv no_numbers (resolve_plain cwd_sample) model_dir_sample
    (Some (Ok df_blank_prompt)) None
    = (Some (mkCSV ["prompt"; "editing_prompt"; "step0_path"]
               [[""; ""; "/data/model/a.png"]]), Ok 0).
Proof. vm_compute. done. Qed.

(** C8, amended: for a source with at least one data row, a prompt column
    and a detected step column, the output file being opened, the prompt of
    every record written is the trimmed text of the source cell under the
    prompt column, at the same place; it is not empty exactly when that
    text has a character that is not white space. No row is left out for
    its prompt: a row has a record as soon as its step paths and those of
    the rows before it can be resolved. *)
Theorem standardise_prompt_field str_num resolve model_dir df pcol :
  rows df ≠ [] →
  find_column (columns df) prompt_candidates = Some pcol →
  detected_steps (columns df) ≠ [] →
  let K := max_list (detected_steps (columns df)) in
  ∃ out outcome,
    standardise_model_csv str_num resolve model_dir (Some (Ok df)) None
      = (Some out, outcome) ∧
    (∀ i rec, records out !! i = Some rec →
       ∃ row rest,
         rows df !! i = Some row ∧
         rec = Py.strip (str_cell str_num (get (columns df) row pcol)) :: rest ∧
         (Py.strip (str_cell str_num (get (columns df) row pcol)) ≠ "" ↔
          Py.has_ink (str_cell str_num (get (columns df) row pcol)) = true)) ∧
    (∀ i row, rows df !! i = Some row →
       (∀ j row' idx, (j ≤ i)%nat → rows df !! j = Some row' → (idx ≤ K)%nat →
          is_ok (expected_step str_num resolve model_dir (columns df) row' idx)
            = true) →
       is_Some (records out !! i)).
Proof.
  intros Hrows Hp Hs K.
  destruct (standardise_outcome str_num resolve model_dir df pcol Hrows Hp Hs)
    as (out & outcome & Hrun & Hfields & Hall & Hout & Hiff).
  exists out, outcome. split; [done|]. split.
  - intros i rec Hrec.
    destruct (records_of_rows _ _ _ _ _ _ _ _ Hall Hrec) as (row & Hrow & He).
    apply expected_record_Ok in He as (cells & -> & _).
    exists row. eexists. split; [done|]. split; [reflexivity|].
    rewrite strip_empty. by destruct (Py.has_ink _).
  - intros i row Hrow Hok. apply lookup_lt_is_Some.
    pose proof (lookup_lt_Some _ _ _ Hrow) as Hi.
    destruct outcome as [k|e].
    + destruct Hout as [_ ->]. done.
    + destruct Hout as (row' & Hrow' & He).
      destruct (decide (i < length (records out))) as [?|Hge]; [done|].
      apply expected_record_Raise in He as (idx & Hidx & He).
      assert (is_ok (expected_step str_num resolve model_dir (columns df) row' idx)
                = true) as Hstep by (apply (Hok (length (records out))); [lia|done|done]).
      by rewrite He in Hstep.
Qed.

Lemma standardise_prompt_field_witness :
  ∃ out outcome,
    standardise_model_csv no_numbers (resolve_loop cwd_sample) model_dir_sample
      (Some (Ok df_loop)) None = (Some out, outcome) ∧
    is_Some (records out !! 0).
Proof.
  destruct (standardise_prompt_field no_numbers (resolve_loop cwd_sample)
              model_dir_sample df_loop "prompt")
    as (out & outcome & Hrun & _ & Hsome);
    [discriminate|reflexivity|vm_compute; discriminate|].
  exists out, outcome. split; [exact Hrun|].
  apply (Hsome 0%nat [Str "a cat"; Str "a.png"]); [reflexivity|].
  intros j row' idx Hj Hrow' Hidx.
  assert (j = 0%nat) as -> by lia. injection Hrow' as <-.
  assert (idx = 0%nat) as ->.
  { vm_compute in Hidx. lia. }
  reflexivity.
Defined.
(** ** Facts about the summariser *)

Section summariser_facts.

Variable float_of_str : string → option Qc.

Lemma position_None c cols : position c cols = None ↔ c ∉ cols.
Proof.
  induction cols as [|h cols IH]; simpl.
  - split; [intros _; apply not_elem_of_nil|done].
  - destruct (String.eqb_spec h c) as [->|Hne].
    + split; [done|]. intros H. destruct H. left.
    + rewrite fmap_None, IH, not_elem_of_cons.
      split; [intros ?; split; [congruence|done]|by intros [_ ?]].
Qed.

Lemma position_Some c cols j : position c cols = Some j → cols !! j = Some c.
Proof.
  revert j. induction cols as [|h cols IH]; intros j; simpl; [done|].
  destruct (String.eqb_spec h c) as [->|Hne].
  - by intros [= <-].
  - destruct (position c cols) as [k|]; [|done]. intros [= <-]. by apply IH.
Qed.

Lemma position_is_Some c cols : c ∈ cols → is_Some (position c cols).
Proof.
  intros Hin. destruct (position c cols) eqn:E; [eauto|].
  by apply position_None in E.
Qed.

Lemma coerce_column_columns col df df' :
  coerce_column float_of_str col df = Ok df' → columns df' = columns df.
Proof.
  unfold coerce_column. destruct (position col (columns df)); [|done].
  by intros [= <-].
Qed.

Lemma coerce_columns_columns cols df df' :
  coerce_columns float_of_str cols df = Ok df' → columns df' = columns df.
Proof.
  revert df. induction cols as [|col cols IH]; intros df; simpl.
  - by intros [= <-].
  - destruct (coerce_column float_of_str col df) as [d|] eqn:E; [|done].
    intros H. rewrite (IH _ H). by eapply coerce_column_columns.
Qed.

(** The coercion loop stops at the first column the table lacks, with the
    key error of that column, and goes through when none is lacking. *)
Lemma coerce_columns_raise cols df e :
  coerce_columns float_of_str cols df = Raise e ↔
  ∃ c, head (filter (λ c, c ∉ columns df) cols) = Some c ∧ e = KeyError c.
Proof.
  revert df. induction cols as [|col cols IH]; intros df; simpl.
  - split; [done|]. by intros (c & ? & _).
  - unfold coerce_column at 1.
    destruct (position col (columns df)) as [j|] eqn:Ep.
    + rewrite filter_cons_False.
      2:{ intros Hn. apply position_None in Hn. congruence. }
      rewrite IH. done.
    + apply position_None in Ep. rewrite filter_cons_True by done. simpl.
      split.
      * intros [= <-]. by exists col.
      * by intros (c & [= <-] & ->).
Qed.

Lemma summarize_guard df :
  empty df = true ∨ "group_id" ∉ columns df →
  summarize_best_worst float_of_str df = Ok None.
Proof.
  unfold summarize_best_worst. intros [->|Hg]; [done|].
  rewrite bool_decide_eq_false_2 by done. by rewrite orb_true_r.
Qed.

Lemma summarize_unguarded df :
  empty df = false → "group_id" ∈ columns df →
  summarize_best_worst float_of_str df =
    match coerce_columns float_of_str numeric_cols df with
    | Raise e => Raise e
    | Ok df =>
        let df := set_num_questions float_of_str df in
        let best := add_prefix "best_" (loc df (idxmax df "group_id" "f1")) in
        let worst := add_prefix "worst_" (loc df (idxmin df "group_id" "f1")) in
        let combined :=
          rename_column "best_group_id" "group_id"
            (merge_outer best worst "best_group_id" "worst_group_id") in
        Ok (Some (if bool_decide ("worst_group_id" ∈ columns combined)
                  then drop_column "worst_group_id" combined else combined))
    end.
Proof.
  intros He Hg. unfold summarize_best_worst.
  rewrite He, bool_decide_eq_true_2 by done. done.
Qed.

Lemma guard_cases df :
  (empty df = true ∨ "group_id" ∉ columns df) ∨
  (empty df = false ∧ "group_id" ∈ columns df).
Proof.
  destruct (empty df); [by left; left|].
  destruct (decide ("group_id" ∈ columns df)); [by right|by left; right].
Qed.

Lemma coerce_columns_raise_missing cols df :
  (∃ c, c ∈ cols ∧ c ∉ columns df) →
  ∃ c, coerce_columns float_of_str cols df = Raise (KeyError c) ∧
       c ∈ cols ∧ c ∉ columns df.
Proof.
  intros (c & Hin & Hc).
  destruct (head (filter (λ c, c ∉ columns df) cols)) as [c'|] eqn:Eh.
  - exists c'. split; [apply coerce_columns_raise; by exists c'|].
    apply head_Some_elem_of, list_elem_of_filter in Eh. by destruct Eh.
  - apply head_None in Eh.
    assert (c ∈ filter (λ c, c ∉ columns df) cols) as Hf
      by (by apply list_elem_of_filter).
    rewrite Eh in Hf. by apply elem_of_nil in Hf.
Qed.

End summariser_facts.

(** The summariser returns without writing anything exactly on a table
    that has no row or no column, or that has no [group_id] column. *)
Theorem summarize_writes_nothing_iff float_of_str df :
  summarize_best_worst float_of_str df = Ok None ↔
  empty df = true ∨ "group_id" ∉ columns df.
Proof.
  split; [|apply summarize_guard].
  destruct (guard_cases df) as [H|[He Hg]]; [done|].
  rewrite summarize_unguarded by done.
  by destruct (coerce_columns _ _ _).
Qed.

(** On a table with rows and a [group_id] column that lacks one of
    [accuracy], [precision], [recall] and [f1], the summariser raises the
    key error of the first of these, in that order, that the table lacks. *)
Theorem summarize_missing_metric_raises float_of_str df c :
  empty df = false → "group_id" ∈ columns df →
  head (filter (λ c, c ∉ columns df) numeric_cols) = Some c →
  summarize_best_worst float_of_str df = Raise (KeyError c).
Proof.
  intros He Hg Hc. rewrite summarize_unguarded by done.
  assert (coerce_columns float_of_str numeric_cols df = Raise (KeyError c)) as ->;
    [|done].
  apply coerce_columns_raise. by exists c.
Qed.

Lemma summarize_missing_metric_raises_witness :
  summarize_best_worst float_half df_no_accuracy = Raise (KeyError "accuracy").
Proof.
  apply (summarize_missing_metric_raises float_half df_no_accuracy "accuracy").
  - reflexivity.
  - left.
  - reflexivity.
Defined.

(** C7: on an empty table, or a table without a [group_id] column, the
    summariser returns without a result and without an error; the call the
    driver makes on a file holding such a table writes no file, leaves the
    files as they are and returns, so that the run goes on. *)
Theorem summarize_silent_no_op float_of_str df :
  empty df = true ∨ "group_id" ∉ columns df →
  summarize_best_worst float_of_str df = Ok None ∧
  ∀ model summary_csv output_csv w,
    files w !! summary_csv = Some df →
    summarize_files float_of_str model summary_csv output_csv w
      = (Ok tt, mkWorld (files w) (log w ++ [Summarize model])).
Proof.
  intros H. pose proof (summarize_guard float_of_str df H) as Hs.
  split; [done|]. intros model s o w Hf.
  unfold summarize_files, bind, emit, read_csv. cbn [files log].
  by rewrite Hf, Hs.
Qed.

Lemma summarize_silent_no_op_witness :
  summarize_best_worst float_half (mkDF ["group_id"; "f1"] []) = Ok None ∧
  summarize_best_worst float_half df_no_group = Ok None ∧
  summarize_files float_half "m" (cultural_summary "T" "m")
    (cultural_best_worst "T" "m") world_cached
    = (Ok tt, mkWorld (files world_cached) [Summarize "m"]).
Proof.
  split; [|split].
  - apply (summarize_silent_no_op float_half (mkDF ["group_id"; "f1"] [])).
    left. reflexivity.
  - apply (summarize_silent_no_op float_half df_no_group).
    right. apply (bool_decide_unpack _). vm_compute. exact I.
  - apply (summarize_silent_no_op float_half (mkDF ["group_id"; "f1"] [])).
    + left. reflexivity.
    + reflexivity.
Defined.

(** C10: a table with rows, a [group_id] column and an [f1] column that
    lacks one of [accuracy], [precision] and [recall] makes the summariser
    raise the key error of a metric column the table lacks, in place of a
    result; the table of one row with [group_id] and [f1] alone is such an
    input. *)
Theorem summarize_requires_metric_columns float_of_str df c :
  empty df = false → "group_id" ∈ columns df → "f1" ∈ columns df →
  c ∈ ["accuracy"; "precision"; "recall"] → c ∉ columns df →
  ∃ c', summarize_best_worst float_of_str df = Raise (KeyError c') ∧
        c' ∈ ["accuracy"; "precision"; "recall"] ∧ c' ∉ columns df.
Proof.
  intros He Hg Hf Hc Hn. rewrite summarize_unguarded by done.
  destruct (coerce_columns_raise_missing float_of_str numeric_cols df)
    as (c' & -> & Hc' & Hn').
  { exists c. split; [|done]. unfold numeric_cols.
    rewrite !elem_of_cons in Hc. rewrite !elem_of_cons. tauto. }
  exists c'. split; [done|]. split; [|done].
  assert (c' ≠ "f1") as Hne by congruence.
  unfold numeric_cols in Hc'. rewrite !elem_of_cons in Hc'.
  rewrite !elem_of_cons. tauto.
Qed.

Lemma summarize_requires_metric_columns_witness :
  ∃ c', summarize_best_worst float_half df_no_accuracy = Raise (KeyError c') ∧
        c' ∈ ["accuracy"; "precision"; "recall"] ∧ c' ∉ columns df_no_accuracy.
Proof.
  apply (summarize_requires_metric_columns float_half df_no_accuracy "accuracy").
  - reflexivity.
  - left.
  - right. left.
  - left.
  - apply (bool_decide_unpack _). vm_compute. exact I.
Defined.
(** ** Facts about the cultural stage *)

Section driver_facts.

Variable float_of_str : string → option Qc.
Variable cultural_scorer :
  string → gmap string DataFrame → option (gmap string DataFrame).
Variable timestamp : string.

Local Notation "'summary'" := (cultural_summary timestamp).
Local Notation "'best_worst'" := (cultural_best_worst timestamp).
Local Notation "'model_turn'" :=
  (cultural_model float_of_str cultural_scorer timestamp).

(** One turn of the loop, case by case. *)
Lemma cultural_model_cases args m w :
  model_turn args m w =
    if bool_decide (is_Some (files w !! summary m)) && negb (force args)
    then (Ok tt, w)
    else
      match cultural_scorer m (files w) with
      | None =>
          (Raise CalledProcessError, mkWorld (files w) (log w ++ [RunCultural m]))
      | Some fs' =>
          match fs' !! summary m with
          | None => (Raise FileNotFoundError, mkWorld fs' (log w ++ scored m))
          | Some df =>
              match summarize_best_worst float_of_str df with
              | Ok None => (Ok tt, mkWorld fs' (log w ++ scored m))
              | Ok (Some out) =>
                  (Ok tt, mkWorld (<[best_worst m := out]> fs') (log w ++ scored m))
              | Raise e => (Raise e, mkWorld fs' (log w ++ scored m))
              end
          end
      end.
Proof.
  unfold cultural_model, bind at 1, file_exists.
  destruct (bool_decide _ && negb _); [done|].
  unfold run_cultural_metric, summarize_files, bind, emit, read_csv, scored.
  cbn [files log].
  destruct (cultural_scorer m (files w)) as [fs'|]; [|done].
  cbn [files log]. rewrite <- app_assoc. cbn [app].
  destruct (fs' !! summary m) as [df|]; [|done].
  by destruct (summarize_best_worst float_of_str df) as [[out|]|e].
Qed.

Lemma for_each_app body l1 l2 w :
  for_each body (l1 ++ l2) w =
    match for_each body l1 w with
    | (Ok _, w1) => for_each body l2 w1
    | (Raise e, w1) => (Raise e, w1)
    end.
Proof.
  revert w. induction l1 as [|m l1 IH]; intros w; [done|].
  cbn [app for_each]. unfold bind.
  destruct (body m w) as [[[]|e] w1]; [apply IH|done].
Qed.

(** What one turn adds to the log. *)
Lemma cultural_model_log args m w r w' :
  model_turn args m w = (r, w') →
  (r = Ok tt ∧ log w' = log w) ∨
  (r = Ok tt ∧ log w' = log w ++ scored m) ∨
  (is_ok r = false ∧ log w' = log w ++ scored m) ∨
  (is_ok r = false ∧ log w' = log w ++ [RunCultural m]).
Proof.
  rewrite cultural_model_cases.
  destruct (bool_decide _ && negb _); [intros [= <- <-]; left; done|].
  destruct (cultural_scorer m (files w)) as [fs'|];
    [|intros [= <- <-]; do 3 right; done].
  destruct (fs' !! summary m) as [df|];
    [|intros [= <- <-]; right; right; left; done].
  destruct (summarize_best_worst float_of_str df) as [[out|]|e];
    intros [= <- <-]; [right; left; done|right; left; done|right; right; left; done].
Qed.

Lemma for_each_log args models w r w' :
  for_each (model_turn args) models w = (r, w') →
  ∃ ms t, sublist ms models ∧ log w' = log w ++ (ms ≫= scored) ++ t ∧
    (r = Ok tt ∧ t = [] ∨
     is_ok r = false ∧ t = [] ∧ ms ≠ [] ∨
     is_ok r = false ∧ ∃ m, sublist (ms ++ [m]) models ∧ t = [RunCultural m]).
Proof.
  revert w. induction models as [|m models IH]; intros w.
  - intros [= <- <-]. exists [], []. rewrite app_nil_r. split; [done|].
    split; [done|]. left; done.
  - cbn [for_each]. unfold bind.
    destruct (model_turn args m w) as [r1 w1] eqn:E1.
    apply cultural_model_log in E1 as [[-> Hl]|[[-> Hl]|[[Hr Hl]|[Hr Hl]]]].
    + intros (ms & t & Hs & Hlog & Ht)%IH. exists ms, t.
      split; [by apply sublist_cons|]. rewrite <- Hl. split; [done|].
      destruct Ht as [?|[?|(? & m' & ? & ?)]]; [left; done|right; left; done|].
      right; right. split; [done|]. exists m'. split; [by apply sublist_cons|done].
    + intros (ms & t & Hs & Hlog & Ht)%IH. exists (m :: ms), t.
      split; [by apply sublist_skip|]. rewrite Hlog, Hl. cbn [mbind list_bind].
      change (mbind scored ms) with (ms ≫= scored).
      split; [by rewrite <- !app_assoc|].
      destruct Ht as [?|[[? [? ?]]|(? & m' & ? & ?)]];
        [left; done|right; left; done|].
      right; right. split; [done|]. exists m'.
      split; [by apply sublist_skip|done].
    + destruct r1; [done|]. intros [= <- <-]. exists [m], [].
      split; [apply sublist_skip, sublist_nil_l|].
      split; [|right; left; done]. rewrite Hl. cbn. by rewrite ?app_nil_r.
    + destruct r1; [done|]. intros [= <- <-]. exists [], [RunCultural m].
      split; [apply sublist_nil_l|]. split; [by rewrite Hl|].
      right; right. split; [done|]. exists m.
      split; [apply sublist_skip, sublist_nil_l|done].
Qed.

Lemma cultural_model_forced args m w r w' :
  force args = true →
  cultural_model float_of_str cultural_scorer timestamp args m w = (r, w') →
  r = Ok tt → log w' = log w ++ scored m.
Proof.
  intros Hf. rewrite cultural_model_cases, Hf, andb_false_r.
  destruct (cultural_scorer m (files w)) as [fs'|]; [|by intros [= <- <-]].
  destruct (fs' !! summary m) as [df|]; [|by intros [= <- <-]].
  destruct (summarize_best_worst float_of_str df) as [[out|]|e];
    by intros [= <- <-].
Qed.

End driver_facts.

(** Without [--force], when the summary of every model for the time stamp
    of the run is on disk, the cultural stage calls neither the scorer nor
    the summariser and leaves every file as it is. *)
Theorem cultural_stage_all_cached float_of_str scorer timestamp args models w :
  force args = false →
  (∀ m, m ∈ models → is_Some (files w !! cultural_summary timestamp m)) →
  cultural_stage float_of_str scorer timestamp args models w = (Ok tt, w).
Proof.
  intros Hf Hall. unfold cultural_stage.
  destruct (negb (skip_cultural args)); [|done].
  induction models as [|m models IH]; [done|].
  cbn [for_each]. unfold bind. rewrite cultural_model_cases, Hf.
  rewrite bool_decide_eq_true_2 by (apply Hall; left). cbn [negb andb].
  apply IH. intros m' Hm'. apply Hall. by right.
Qed.

Lemma cultural_stage_all_cached_witness :
  cultural_stage float_half scorer_fails "T" (mkArgs false false) ["m"] world_cached
    = (Ok tt, world_cached).
Proof.
  apply (cultural_stage_all_cached float_half scorer_fails "T"
           (mkArgs false false) ["m"] world_cached).
  - reflexivity.
  - intros m Hm. apply list_elem_of_singleton in Hm. subst m.
    vm_compute. eexists. reflexivity.
Defined.

(** A scorer that exits with an error ends the stage there: the error is
    raised, the model is not summarised, and no model after it is scored
    or summarised, whatever these are. *)
Theorem cultural_stage_fail_fast float_of_str scorer timestamp args before m after w w1 :
  skip_cultural args = false →
  cultural_stage float_of_str scorer timestamp args before w = (Ok tt, w1) →
  files w1 !! cultural_summary timestamp m = None ∨ force args = true →
  scorer m (files w1) = None →
  cultural_stage float_of_str scorer timestamp args (before ++ m :: after) w
    = (Raise CalledProcessError, mkWorld (files w1) (log w1 ++ [RunCultural m])).
Proof.
  intros Hs. unfold cultural_stage. rewrite Hs. cbn [negb].
  intros Hb Hc Hf. rewrite for_each_app, Hb. cbn [for_each]. unfold bind.
  rewrite cultural_model_cases, Hf.
  destruct Hc as [Hc|Hc].
  - rewrite Hc. by rewrite bool_decide_eq_false_2 by (by intros [? ?]).
  - by rewrite Hc, andb_false_r.
Qed.

Lemma cultural_stage_fail_fast_witness :
  cultural_stage float_half scorer_fails "T" (mkArgs false false)
    ["m"; "n"; "o"] world_cached
    = (Raise CalledProcessError,
       mkWorld (files world_cached) [RunCultural "n"]).
Proof.
  apply (cultural_stage_fail_fast float_half scorer_fails "T"
           (mkArgs false false) ["m"] "n" ["o"] world_cached world_cached).
  - reflexivity.
  - reflexivity.
  - left. reflexivity.
  - reflexivity.
Defined.

(** The calls of the cultural stage, whatever its outcome: some of the
    models, in the order given and each once, are scored and summarised
    right after; a scorer run that is not followed by its summary is the
    last call of a stage that ends in an error, and its model comes after
    the models summarised. With [--skip-cultural] there is no call. *)
Theorem cultural_stage_calls float_of_str scorer timestamp args models w :
  ∃ ms t,
    sublist ms models ∧
    log (cultural_stage float_of_str scorer timestamp args models w).2
      = log w ++ (ms ≫= scored) ++ t ∧
    (skip_cultural args = true → ms = [] ∧ t = []) ∧
    (t = [] ∨
     is_ok (cultural_stage float_of_str scorer timestamp args models w).1 = false ∧
     ∃ m, sublist (ms ++ [m]) models ∧ t = [RunCultural m]).
Proof.
  unfold cultural_stage. destruct (skip_cultural args); cbn [negb].
  - exists [], []. split; [apply sublist_nil_l|].
    split; [by rewrite !app_nil_r|]. split; [done|by left].
  - destruct (for_each _ models w) as [r w'] eqn:E.
    apply for_each_log in E as (ms & t & Hs & Hlog & Ht).
    exists ms, t. split; [done|]. split; [done|]. split; [done|]. cbn [fst snd].
    destruct Ht as [[_ ->]|[(_ & -> & _)|(? & ?)]]; [by left|by left|by right].
Qed.

(** With [--force] a stage that ends without an error has scored and
    summarised every model, in the order given, whether or not a summary
    was on disk. *)
Theorem cultural_stage_forced float_of_str scorer timestamp args models w w' :
  skip_cultural args = false → force args = true →
  cultural_stage float_of_str scorer timestamp args models w = (Ok tt, w') →
  log w' = log w ++ (models ≫= scored).
Proof.
  intros Hs Hf. unfold cultural_stage. rewrite Hs. cbn [negb].
  revert w. induction models as [|m models IH]; intros w.
  - intros [= <-]. by rewrite app_nil_r.
  - cbn [for_each]. unfold bind.
    destruct (cultural_model _ _ _ args m w) as [[[]|e] w1] eqn:E1; [|done].
    intros Hrest. apply IH in Hrest. rewrite Hrest.
    rewrite (cultural_model_forced _ _ _ _ _ _ _ _ Hf E1 eq_refl).
    by rewrite <- app_assoc.
Qed.

Lemma cultural_stage_forced_witness :
  log (mkWorld (files world_cached) (scored "m")) = log world_cached ++ (["m"] ≫= scored).
Proof.
  apply (cultural_stage_forced float_half scorer_idle "T" (mkArgs false true)
           ["m"] world_cached).
  - reflexivity.
  - reflexivity.
  - vm_compute. reflexivity.
Defined.

(** A scorer that exits normally and leaves no summary file makes the
    summariser fail on reading it: the turn of the model raises the error of
    a missing file, after both calls. *)
Theorem cultural_model_summary_not_written float_of_str scorer timestamp args m w fs' :
  files w !! cultural_summary timestamp m = None ∨ force args = true →
  scorer m (files w) = Some fs' →
  fs' !! cultural_summary timestamp m = None →
  cultural_model float_of_str scorer timestamp args m w
    = (Raise FileNotFoundError, mkWorld fs' (log w ++ scored m)).
Proof.
  intros Hc Hr Hn. rewrite cultural_model_cases, Hr, Hn.
  destruct Hc as [Hc|Hc].
  - rewrite Hc. by rewrite bool_decide_eq_false_2 by (by intros [? ?]).
  - by rewrite Hc, andb_false_r.
Qed.

Lemma cultural_model_summary_not_written_witness :
  cultural_model float_half scorer_idle "T" (mkArgs false false) "m" world_blank
    = (Raise FileNotFoundError, mkWorld ∅ (scored "m")).
Proof.
  apply (cultural_model_summary_not_written float_half scorer_idle "T"
           (mkArgs false false) "m" world_blank ∅).
  - left. reflexivity.
  - reflexivity.
  - reflexivity.
Defined.


(** C5, as stated, fails: with the summary of a model on disk and without
    [--force] the turn of the model ends at once; the summariser is not
    called, although a cached summary exists. *)
Lemma cultural_stage_cached_not_summarized :
  is_Some (files world_cached !! cultural_summary "T" "m") ∧
  cultural_stage float_half scorer_idle "T" (mkArgs false false) ["m"] world_cached
    = (Ok tt, world_cached) ∧
  Summarize "m" ∉ log world_cached.
Proof.
  split; [vm_compute; by eexists|]. split; [reflexivity|].
  apply not_elem_of_nil.
Qed.

(** C5, amended: in the turn of a model the summariser is called exactly
    when the scorer is run in that turn and exits normally. When the summary
    of the model is on disk and [--force] is not set the turn ends at once,
    with no call and nothing changed; otherwise the scorer is run, and then
    the summariser if the scorer exits normally, the turn raising the error
    of the subprocess if it does not. *)
Theorem cultural_model_summarized_iff float_of_str scorer timestamp args m w :
  let skipped :=
    bool_decide (is_Some (files w !! cultural_summary timestamp m))
      && negb (force args) in
  let out := cultural_model float_of_str scorer timestamp args m w in
  ∃ t,
    log out.2 = log w ++ t ∧
    (skipped = true → t = [] ∧ out = (Ok tt, w)) ∧
    (skipped = false → scorer m (files w) = None →
       t = [RunCultural m] ∧ out.1 = Raise CalledProcessError) ∧
    (skipped = false → is_Some (scorer m (files w)) →
       t = [RunCultural m; Summarize m]) ∧
    (Summarize m ∈ t ↔ skipped = false ∧ is_Some (scorer m (files w))).
Proof.
  intros skipped out. subst out. rewrite cultural_model_cases. fold skipped.
  destruct skipped.
  { exists []. cbn [fst snd]. rewrite app_nil_r. split; [done|]. split; [done|].
    split; [done|]. split; [done|]. split; [|by intros [? _]].
    by intros ?%elem_of_nil. }
  destruct (scorer m (files w)) as [fs'|] eqn:Hs.
  - exists (scored m). split.
    + destruct (fs' !! cultural_summary timestamp m) as [df|]; [|done].
      by destruct (summarize_best_worst float_of_str df) as [[out|]|e].
    + split; [done|]. split; [done|]. split; [done|].
      split; [intros _; split; [done|by eexists]|intros _].
      right. left.
  - exists [RunCultural m]. cbn [fst snd log]. split; [done|]. split; [done|].
    split; [done|]. split; [by intros _ [? ?]|].
    split; [|by intros [_ [? ?]]].
    intros [=]%list_elem_of_singleton.
Qed.

Lemma cultural_model_summarized_iff_witness :
  ∃ t,
    log (cultural_model float_half scorer_idle "T" (mkArgs false true) "m"
           world_cached).2 = log world_cached ++ t ∧
    t = [RunCultural "m"; Summarize "m"].
Proof.
  destruct (cultural_model_summarized_iff float_half scorer_idle "T"
              (mkArgs false true) "m" world_cached)
    as (t & Hlog & _ & _ & Hscored & _).
  exists t. split; [exact Hlog|].
  apply Hscored; [reflexivity|]. eexists. reflexivity.
Defined.
(** ** The extreme row of a group *)

Section extreme.

Variable better : Qc → Qc → bool.
Variable prec : Qc → Qc → Prop.
Hypothesis better_spec : ∀ q b, better q b = true ↔ prec q b.
Hypothesis prec_irrefl : ∀ q, ¬ prec q q.
Hypothesis prec_trans : ∀ a b c, prec a b → prec b c → prec a c.
Hypothesis prec_total : ∀ a b, prec a b ∨ a = b ∨ prec b a.

Variables (cols : list string) (group value : string) (k : cell).

Lemma candidate_dec row :
  {q | candidate cols group value k row q} +
  {∀ q, ¬ candidate cols group value k row q}.
Proof.
  unfold candidate. destruct (decide (get cols row group = k)) as [Hk|Hk].
  - destruct (get cols row value) as [|q|s] eqn:Ev.
    + right. by intros q [_ ?].
    + left. by exists q.
    + right. by intros q [_ ?].
  - right. by intros q [? _].
Qed.

Lemma extreme_step_skip acc i row :
  (∀ q, ¬ candidate cols group value k row q) →
  extreme_step better cols group value k acc (i, row) = acc.
Proof.
  intros Hn. unfold extreme_step. cbn [fst snd].
  destruct (decide _) as [Hk|]; [|done].
  destruct (get cols row value) as [|q|s] eqn:Ev; [done| |done].
  destruct (Hn q). by split.
Qed.

Lemma extreme_step_take acc i row q :
  candidate cols group value k row q →
  extreme_step better cols group value k acc (i, row) =
    match acc with
    | Some (_, b) => if better q b then Some (i, q) else acc
    | None => Some (i, q)
    end.
Proof.
  intros [Hk Hv]. unfold extreme_step. cbn [fst snd].
  rewrite decide_True by done. by rewrite Hv.
Qed.

(** The running extreme after the rows [R]: nothing when no row counts,
    the first extreme otherwise. *)
Lemma foldl_extreme R :
  match foldl (extreme_step better cols group value k) None
          (imap (λ i row, (i, row)) R) with
  | None => ∀ j row q, R !! j = Some row → ¬ candidate cols group value k row q
  | Some (i, q) => first_extreme prec cols group value k R i q
  end.
Proof.
  induction R as [|row R IH] using rev_ind; [by intros j row q ?|].
  rewrite imap_app, foldl_app. cbn [imap foldl]. rewrite Nat.add_0_r.
  destruct (foldl _ None (imap _ R)) as [[i b]|] eqn:E.
  - destruct (candidate_dec row) as [[q Hq]|Hn].
    + rewrite (extreme_step_take _ _ _ q) by done.
      destruct IH as [(rowi & Hi & Hci) Hall].
      destruct (better q b) eqn:Eb.
      * apply better_spec in Eb. split.
        { exists row. by rewrite lookup_app_r, Nat.sub_diag by lia. }
        intros j row' q' Hj Hc'.
        apply lookup_app_Some in Hj as [Hj|[Hlen Hj]].
        -- destruct (Hall j row' q' Hj Hc') as [Hnp _].
           assert (prec q q') as Hqq'.
           { destruct (prec_total q' b) as [?|[->|?]]; [done|done|].
             by eapply prec_trans. }
           split; [|done]. intros Hp. eapply prec_irrefl, prec_trans; eauto.
        -- apply list_lookup_singleton_Some in Hj as [Hj ->].
           destruct Hq as [_ Hq], Hc' as [_ Hc']. rewrite Hq in Hc'.
           injection Hc' as <-. split; [apply prec_irrefl|lia].
      * assert (¬ prec q b) as Hnb.
        { intros Hp. apply better_spec in Hp. congruence. }
        split.
        { exists rowi. split; [|done]. by apply lookup_app_l_Some. }
        intros j row' q' Hj Hc'.
        apply lookup_app_Some in Hj as [Hj|[Hlen Hj]]; [by apply (Hall j row' q')|].
        apply list_lookup_singleton_Some in Hj as [Hj ->].
        destruct Hq as [_ Hq], Hc' as [_ Hc']. rewrite Hq in Hc'.
        injection Hc' as <-. split; [done|].
        apply lookup_lt_Some in Hi. lia.
    + rewrite extreme_step_skip by done.
      destruct IH as [(rowi & Hi & Hci) Hall]. split.
      { exists rowi. split; [|done]. by apply lookup_app_l_Some. }
      intros j row' q' Hj Hc'.
      apply lookup_app_Some in Hj as [Hj|[Hlen Hj]]; [by apply (Hall j row' q')|].
      apply list_lookup_singleton_Some in Hj as [Hj ->]. by destruct (Hn q').
  - destruct (candidate_dec row) as [[q Hq]|Hn].
    + rewrite (extreme_step_take _ _ _ q) by done. split.
      { exists row. by rewrite lookup_app_r, Nat.sub_diag by lia. }
      intros j row' q' Hj Hc'.
      apply lookup_app_Some in Hj as [Hj|[Hlen Hj]]; [by destruct (IH j row' q')|].
      apply list_lookup_singleton_Some in Hj as [Hj ->].
      destruct Hq as [_ Hq], Hc' as [_ Hc']. rewrite Hq in Hc'.
      injection Hc' as <-. split; [apply prec_irrefl|lia].
    + rewrite extreme_step_skip by done.
      intros j row' q' Hj Hc'.
      apply lookup_app_Some in Hj as [Hj|[Hlen Hj]]; [by destruct (IH j row' q')|].
      apply list_lookup_singleton_Some in Hj as [Hj ->]. by destruct (Hn q').
Qed.

End extreme.

(** ** The order of keys *)

Section key_order.

Lemma leb_nil_l s : String.leb "" s = true.
Proof. by destruct s. Qed.

Lemma leb_cons a s b t :
  String.leb (String a s) (String b t) = true ↔
  (N_of_ascii a < N_of_ascii b)%N ∨ (a = b ∧ String.leb s t = true).
Proof.
  unfold String.leb. cbn [String.compare]. unfold Ascii.compare.
  destruct (N.compare_spec (N_of_ascii a) (N_of_ascii b)) as [He|Hl|Hg].
  - assert (a = b) as ->.
    { rewrite <- (ascii_N_embedding a), <- (ascii_N_embedding b). by rewrite He. }
    split; [by right|]. intros [?|[_ ?]]; [lia|done].
  - split; [by left|done].
  - split; [done|]. intros [?|[-> _]]; lia.
Qed.

Lemma leb_trans s1 s2 s3 :
  String.leb s1 s2 = true → String.leb s2 s3 = true → String.leb s1 s3 = true.
Proof.
  revert s2 s3. induction s1 as [|a s1 IH]; intros s2 s3;
    [intros _ _; apply leb_nil_l|].
  destruct s2 as [|b s2]; [done|]. destruct s3 as [|c s3]; [done|].
  rewrite !leb_cons. intros [H1|[-> H1]] [H2|[-> H2]].
  - left. lia.
  - by left.
  - by left.
  - right. split; [done|]. by eapply IH.
Qed.

Global Instance cell_leb_total : Total (λ a b : cell, cell_leb a b).
Proof.
  intros [|x|s] [|y|t]; cbn; try (by left); try (by right).
  - rewrite !bool_decide_spec. destruct (Qclt_le_dec x y) as [Hxy|Hxy];
      [left; by apply Qclt_le_weak|by right].
  - destruct (String.leb_total s t) as [Hst | Hst]; rewrite Hst; [by left | by right].
Qed.

Global Instance cell_leb_trans : Transitive (λ a b : cell, cell_leb a b).
Proof.
  intros [|x|s] [|y|t] [|z|u]; cbn; try done.
  - rewrite !bool_decide_spec. apply Qcle_trans.
  - rewrite !Is_true_true. apply leb_trans.
Qed.

Global Instance cell_leb_antisym : AntiSymm (=) (λ a b : cell, cell_leb a b).
Proof.
  intros [|x|s] [|y|t]; cbn; try done.
  - rewrite !bool_decide_spec. intros. f_equal. by apply Qcle_antisym.
  - rewrite !Is_true_true. intros. f_equal. by apply String.leb_antisym.
Qed.

Lemma StronglySorted_filter {A} (R : relation A) (P : A → Prop)
    `{!∀ x, Decision (P x)} (l : list A) :
  StronglySorted R l → StronglySorted R (filter P l).
Proof.
  induction 1 as [|x l Hs IH Hall]; [constructor|].
  rewrite filter_cons. destruct (decide (P x)); [|done].
  constructor; [done|]. apply Forall_forall. intros y Hy.
  apply list_elem_of_filter in Hy as [_ Hy].
  by eapply (proj1 (Forall_forall _ _)) in Hall.
Qed.

(** The keys of [sorted_keys] are those given, each once, in order. *)
Lemma sorted_keys_elem keys k : k ∈ sorted_keys keys ↔ k ∈ keys.
Proof.
  unfold sorted_keys. by rewrite merge_sort_Permutation, elem_of_remove_dups.
Qed.

Lemma sorted_keys_NoDup keys : NoDup (sorted_keys keys).
Proof.
  unfold sorted_keys. rewrite merge_sort_Permutation. apply NoDup_remove_dups.
Qed.

Lemma sorted_keys_sorted keys :
  StronglySorted (λ a b : cell, cell_leb a b) (sorted_keys keys).
Proof. apply StronglySorted_merge_sort; apply _. Qed.

(** Sorting keys that are sorted and distinct, given once or twice, gives
    them back. *)
Lemma sorted_keys_fixed keys l :
  StronglySorted (λ a b : cell, cell_leb a b) l → NoDup l →
  (∀ k, k ∈ keys ↔ k ∈ l) →
  sorted_keys keys = l.
Proof.
  intros Hs Hn He. apply (StronglySorted_unique (λ a b : cell, cell_leb a b)).
  - apply sorted_keys_sorted.
  - done.
  - apply NoDup_Permutation; [apply sorted_keys_NoDup|done|].
    intros k. by rewrite sorted_keys_elem.
Qed.

End key_order.

(** ** Facts about columns and rows *)

Section table_facts.

Lemma eqb_prefix p a b : String.eqb (p +:+ a) (p +:+ b) = String.eqb a b.
Proof.
  induction p as [|x p IH]; [done|].
  simpl. by rewrite Ascii.eqb_refl.
Qed.

Lemma position_lt c cols j : position c cols = Some j → j < length cols.
Proof. intros H%position_Some. by eapply lookup_lt_Some. Qed.

Lemma position_fmap_inj (f : string → string) c cols :
  (∀ h, h ∈ cols → f h = f c → h = c) →
  position (f c) (f <$> cols) = position c cols.
Proof.
  induction cols as [|h cols IH]; intros Hinj; [done|]. cbn.
  destruct (String.eqb_spec h c) as [->|Hne].
  - by rewrite String.eqb_refl.
  - destruct (String.eqb_spec (f h) (f c)) as [He|_].
    + destruct Hne. apply Hinj; [left|done].
    + rewrite IH; [done|]. intros h' Hh'. apply Hinj. by right.
Qed.

Lemma position_fmap_None (f : string → string) c cols :
  (∀ h, h ∈ cols → f h ≠ c) → position c (f <$> cols) = None.
Proof.
  intros Hne. apply position_None. intros (h & -> & Hh)%list_elem_of_fmap.
  by apply (Hne h).
Qed.

Lemma position_app c l1 l2 :
  position c (l1 ++ l2) =
    match position c l1 with
    | Some i => Some i
    | None => (λ i, length l1 + i) <$> position c l2
    end.
Proof.
  induction l1 as [|h l1 IH]; cbn.
  - by destruct (position c l2).
  - destruct (String.eqb h c); [done|]. rewrite IH.
    destruct (position c l1); [done|]. by destruct (position c l2).
Qed.

Lemma position_delete c cols i j :
  position c cols = Some i → i ≠ j →
  position c (delete j cols) = Some (if decide (i < j) then i else pred i).
Proof.
  revert i j. induction cols as [|h cols IH]; intros i j; [done|]. simpl.
  destruct (String.eqb h c) eqn:E.
  - intros [= <-] Hne. destruct j as [|j]; [done|]. simpl. by rewrite E.
  - destruct (position c cols) as [i'|] eqn:Ep; [|done]. intros [= <-] Hne.
    destruct j as [|j]; simpl.
    + by rewrite Ep.
    + pose proof (IH i' j eq_refl ltac:(lia)) as IH'.
      change (list_delete j cols) with (delete j cols).
      rewrite E, IH'. simpl.
      destruct i' as [|i']; repeat case_decide; (done || lia).
Qed.

Lemma get_prefix p cols row c :
  get ((λ c, p +:+ c) <$> cols) row (p +:+ c) = get cols row c.
Proof.
  unfold get. rewrite (position_fmap_inj (λ c, p +:+ c)); [done|].
  intros h _ He. apply String.eqb_eq. rewrite <- (eqb_prefix p).
  by apply String.eqb_eq.
Qed.

Lemma get_app_l cols cols' row row' c :
  length row = length cols → c ∈ cols →
  get (cols ++ cols') (row ++ row') c = get cols row c.
Proof.
  intros Hlen Hc. unfold get. rewrite position_app.
  destruct (position_is_Some c cols Hc) as [i Hi]. rewrite Hi.
  apply position_lt in Hi. by rewrite lookup_app_l by lia.
Qed.

Lemma get_app_r cols cols' row row' c :
  length row = length cols → c ∉ cols →
  get (cols ++ cols') (row ++ row') c = get cols' row' c.
Proof.
  intros Hlen Hc. unfold get. rewrite position_app.
  apply position_None in Hc. rewrite Hc.
  destruct (position c cols') as [i|]; [|done]. cbn.
  rewrite lookup_app_r by lia. f_equal. f_equal. lia.
Qed.

Lemma get_delete cols row c j :
  c ∈ cols → cols !! j ≠ Some c →
  get (delete j cols) (delete j row) c = get cols row c.
Proof.
  intros Hc Hj. unfold get. destruct (position_is_Some c cols Hc) as [i Hi].
  assert (i ≠ j) as Hne.
  { intros ->. by apply position_Some in Hi. }
  rewrite (position_delete _ _ _ _ Hi Hne), Hi.
  case_decide.
  - by rewrite list_lookup_delete_lt by done.
  - rewrite list_lookup_delete_ge by lia. f_equal. f_equal. lia.
Qed.

Lemma delete_app_r {A} (l1 l2 : list A) n j :
  length l1 = n → delete (n + j) (l1 ++ l2) = l1 ++ delete j l2.
Proof.
  revert n. induction l1 as [|x l1 IH]; intros n <-; [done|].
  cbn. f_equal. by apply IH.
Qed.

Lemma omap_omap {A B C} (f : A → option B) (g : B → option C) (l : list A) :
  omap g (omap f l) = omap (λ x, f x ≫= g) l.
Proof.
  induction l as [|x l IH]; [done|]. cbn.
  destruct (f x) as [y|]; cbn; [|done]. rewrite IH. by destruct (g y).
Qed.

Lemma omap_fmap_filter {A B} (f : A → option B) (d : B) (l : list A) :
  omap f l = (λ x, default d (f x)) <$> filter (λ x, is_Some (f x)) l.
Proof.
  induction l as [|x l IH]; [done|]. rewrite filter_cons. simpl.
  destruct (f x) as [y|] eqn:E.
  - rewrite decide_True by done. simpl. rewrite E. simpl. f_equal. apply IH.
  - rewrite decide_False by (by intros [? ?]). apply IH.
Qed.

Lemma fmap_fixed {A} (f : A → A) (l : list A) :
  (∀ x, x ∈ l → f x = x) → f <$> l = l.
Proof.
  induction l as [|x l IH]; intros H; [done|]. cbn.
  rewrite H by left. f_equal. apply IH. intros y Hy. apply H. by right.
Qed.

Lemma fmap_ext_in {A B} (f g : A → B) (l : list A) :
  (∀ x, x ∈ l → f x = g x) → f <$> l = g <$> l.
Proof.
  induction l as [|x l IH]; intros H; [done|]. cbn.
  rewrite H by left. f_equal. apply IH. intros y Hy. apply H. by right.
Qed.

Lemma bind_singleton_in {A B} (f : A → list B) (g : A → B) (l : list A) :
  (∀ x, x ∈ l → f x = [g x]) → l ≫= f = g <$> l.
Proof.
  induction l as [|x l IH]; intros H; [done|]. cbn.
  rewrite H by left. cbn. f_equal. apply IH. intros y Hy. apply H. by right.
Qed.

(** Among rows that carry distinct keys, one per key, the rows of a key
    are the one row made for it. *)
Lemma filter_fmap_key {A} (key : A → cell) (f : cell → A) (l : list cell) k :
  NoDup l → k ∈ l → (∀ x, x ∈ l → key (f x) = x) →
  filter (λ r, key r = k) (f <$> l) = [f k].
Proof.
  assert (∀ l', k ∉ l' → (∀ x, x ∈ l' → key (f x) = x) →
            filter (λ r, key r = k) (f <$> l') = []) as Hnone.
  { induction l' as [|y l' IH]; intros Hk Hkey; [done|].
    apply not_elem_of_cons in Hk as [Hy Hk].
    rewrite fmap_cons, filter_cons, decide_False.
    2:{ rewrite Hkey by left. congruence. }
    apply IH; [done|]. intros z Hz. apply Hkey. by right. }
  induction l as [|x l IH]; intros Hn Hk Hkey; [by apply elem_of_nil in Hk|].
  apply NoDup_cons in Hn as [Hx Hn]. rewrite fmap_cons, filter_cons.
  assert (∀ y, y ∈ l → key (f y) = y) as Hkey' by (intros y ?; apply Hkey; by right).
  destruct (decide (x = k)) as [->|Hne].
  - rewrite decide_True by (apply Hkey; left). f_equal. by apply Hnone.
  - rewrite decide_False by (rewrite Hkey by left; done).
    apply IH; [done| |done]. by apply elem_of_cons in Hk as [?|?].
Qed.

End table_facts.


(** ** The rows the summariser selects *)

Section selection.

Variables (d : DataFrame) (group value : string).

Lemma gt_spec q b : gt q b = true ↔ (b < q)%Qc.
Proof. unfold gt. apply bool_decide_eq_true. Qed.

Lemma lt_spec q b : lt q b = true ↔ (q < b)%Qc.
Proof. unfold lt. apply bool_decide_eq_true. Qed.

Lemma Qclt_total a b : (a < b)%Qc ∨ a = b ∨ (b < a)%Qc.
Proof. destruct (Qc_dec a b) as [[?|?]|?]; auto. Qed.

Lemma idx_extreme_gt k :
  match idx_extreme gt d group value k with
  | Some i =>
      ∃ q, first_extreme (λ a b, (b < a)%Qc) (columns d) group value k (rows d) i q
  | None =>
      ∀ j row q, rows d !! j = Some row →
        ¬ candidate (columns d) group value k row q
  end.
Proof.
  unfold idx_extreme.
  pose proof (foldl_extreme gt (λ a b, (b < a)%Qc) gt_spec) as H.
  specialize (H (λ q Hq, Qclt_not_eq q q Hq eq_refl)).
  specialize (H (λ a b c Hab Hbc, Qclt_trans _ _ _ Hbc Hab)).
  specialize (H (λ a b, match Qclt_total a b with
                        | or_introl h => or_intror (or_intror h)
                        | or_intror (or_introl h) => or_intror (or_introl h)
                        | or_intror (or_intror h) => or_introl h
                        end)).
  specialize (H (columns d) group value k (rows d)).
  destruct (foldl _ _ _) as [[i q]|]; cbn; [by exists q|done].
Qed.

Lemma idx_extreme_lt k :
  match idx_extreme lt d group value k with
  | Some i =>
      ∃ q, first_extreme (λ a b, (a < b)%Qc) (columns d) group value k (rows d) i q
  | None =>
      ∀ j row q, rows d !! j = Some row →
        ¬ candidate (columns d) group value k row q
  end.
Proof.
  unfold idx_extreme.
  pose proof (foldl_extreme lt (λ a b, (a < b)%Qc) lt_spec) as H.
  specialize (H (λ q Hq, Qclt_not_eq q q Hq eq_refl)).
  specialize (H (λ a b c Hab Hbc, Qclt_trans _ _ _ Hab Hbc)).
  specialize (H Qclt_total).
  specialize (H (columns d) group value k (rows d)).
  destruct (foldl _ _ _) as [[i q]|]; cbn; [by exists q|done].
Qed.

(** A group has a greatest value exactly when it has a least one. *)
Lemma idx_extreme_both k :
  is_Some (idx_extreme lt d group value k) ↔
  is_Some (idx_extreme gt d group value k).
Proof.
  pose proof (idx_extreme_gt k) as Hg. pose proof (idx_extreme_lt k) as Hl.
  destruct (idx_extreme gt d group value k) as [i|],
           (idx_extreme lt d group value k) as [i'|]; [done| | |done].
  - destruct Hg as (q & (row & Hi & Hc) & _). by destruct (Hl i row q).
  - destruct Hl as (q & (row & Hi & Hc) & _). by destruct (Hg i' row q).
Qed.

Lemma idx_extreme_Some k :
  is_Some (idx_extreme gt d group value k) ↔
  ∃ row q, row ∈ rows d ∧ candidate (columns d) group value k row q.
Proof.
  pose proof (idx_extreme_gt k) as Hg.
  destruct (idx_extreme gt d group value k) as [i|].
  - split; [intros _|by eauto].
    destruct Hg as (q & (row & Hi & Hc) & _). exists row, q.
    split; [by eapply list_elem_of_lookup_2|done].
  - split; [by intros [? ?]|]. intros (row & q & Hr & Hc).
    apply list_elem_of_lookup_1 in Hr as [j Hj]. by destruct (Hg j row q).
Qed.

Lemma group_keys_elem k :
  k ∈ group_keys d group ↔
  k ≠ NaN ∧ ∃ row, row ∈ rows d ∧ get (columns d) row group = k.
Proof.
  unfold group_keys. rewrite sorted_keys_elem, list_elem_of_filter.
  unfold column_cells. rewrite list_elem_of_fmap. split.
  - intros [Hk (row & -> & Hr)]. split; [done|]. by exists row.
  - intros [Hk (row & Hr & <-)]. split; [done|]. by exists row.
Qed.

Lemma scored_keys_elem k :
  k ∈ scored_keys d group value ↔
  k ≠ NaN ∧ ∃ row q, row ∈ rows d ∧ candidate (columns d) group value k row q.
Proof.
  unfold scored_keys. rewrite list_elem_of_filter, idx_extreme_Some, group_keys_elem.
  split.
  - by intros [? [? _]].
  - intros [Hk (row & q & Hr & Hc)]. split; [by eauto|].
    split; [done|]. exists row. split; [done|]. by destruct Hc.
Qed.

Lemma scored_keys_NoDup : NoDup (scored_keys d group value).
Proof. apply NoDup_filter, sorted_keys_NoDup. Qed.

Lemma scored_keys_sorted :
  StronglySorted (λ a b : cell, cell_leb a b) (scored_keys d group value).
Proof. apply StronglySorted_filter, sorted_keys_sorted. Qed.

(** The row kept for a scored group is the first extreme of the group. *)
Lemma extreme_row_gt k :
  k ∈ scored_keys d group value →
  ∃ i q, first_extreme (λ a b, (b < a)%Qc) (columns d) group value k (rows d) i q ∧
         rows d !! i = Some (extreme_row gt d group value k).
Proof.
  unfold scored_keys, extreme_row. rewrite list_elem_of_filter. intros [Hs _].
  pose proof (idx_extreme_gt k) as Hg.
  destruct (idx_extreme gt d group value k) as [i|]; [|by destruct Hs].
  destruct Hg as [q Hq]. exists i, q. split; [done|].
  destruct Hq as [(row & Hi & _) _]. cbn. by rewrite Hi.
Qed.

Lemma extreme_row_lt k :
  k ∈ scored_keys d group value →
  ∃ i q, first_extreme (λ a b, (a < b)%Qc) (columns d) group value k (rows d) i q ∧
         rows d !! i = Some (extreme_row lt d group value k).
Proof.
  unfold scored_keys, extreme_row. rewrite list_elem_of_filter.
  rewrite <- idx_extreme_both. intros [Hs _].
  pose proof (idx_extreme_lt k) as Hl.
  destruct (idx_extreme lt d group value k) as [i|]; [|by destruct Hs].
  destruct Hl as [q Hq]. exists i, q. split; [done|].
  destruct Hq as [(row & Hi & _) _]. cbn. by rewrite Hi.
Qed.

Lemma idx_extreme_gt_row k :
  is_Some (idx_extreme gt d group value k ≫= λ i, rows d !! i) ↔
  is_Some (idx_extreme gt d group value k).
Proof.
  pose proof (idx_extreme_gt k) as Hg.
  destruct (idx_extreme gt d group value k) as [i|]; [|cbn; split; intros [? ?]; done].
  destruct Hg as (q & (row & Hi & _) & _). cbn. rewrite Hi. split; eauto.
Qed.

Lemma idx_extreme_lt_row k :
  is_Some (idx_extreme lt d group value k ≫= λ i, rows d !! i) ↔
  is_Some (idx_extreme gt d group value k).
Proof.
  rewrite <- idx_extreme_both. pose proof (idx_extreme_lt k) as Hl.
  destruct (idx_extreme lt d group value k) as [i|]; [|cbn; split; intros [? ?]; done].
  destruct Hl as (q & (row & Hi & _) & _). cbn. rewrite Hi. split; eauto.
Qed.

(** The rows at the indices of [idxmax] and of [idxmin]. *)
Lemma loc_idxmax :
  rows (loc d (idxmax d group value))
    = extreme_row gt d group value <$> scored_keys d group value.
Proof.
  unfold loc, idxmax, extreme_row, scored_keys. cbn [rows].
  rewrite omap_omap, (omap_fmap_filter _ []). f_equal.
  apply list_filter_iff, idx_extreme_gt_row.
Qed.

Lemma loc_idxmin :
  rows (loc d (idxmin d group value))
    = extreme_row lt d group value <$> scored_keys d group value.
Proof.
  unfold loc, idxmin, extreme_row, scored_keys. cbn [rows].
  rewrite omap_omap, (omap_fmap_filter _ []). f_equal.
  apply list_filter_iff, idx_extreme_lt_row.
Qed.

End selection.

(** ** The table the summariser writes *)

Section summary_table.

Variable d : DataFrame.
Variable j : nat.
Hypothesis Hrows : Forall (λ row, length row = length (columns d)) (rows d).
Hypothesis Hj : position "group_id" (columns d) = Some j.

Local Notation "'K''" := (scored_keys d "group_id" "f1").
Local Notation "'rb'" := (extreme_row gt d "group_id" "f1").
Local Notation "'rw'" := (extreme_row lt d "group_id" "f1").

Lemma row_length i row : rows d !! i = Some row → length row = length (columns d).
Proof.
  intros Hi. by eapply (proj1 (Forall_forall _ _) Hrows), list_elem_of_lookup_2.
Qed.

Lemma best_row_facts k :
  k ∈ K' →
  get (columns d) (rb k) "group_id" = k ∧ length (rb k) = length (columns d).
Proof.
  intros Hk. destruct (extreme_row_gt d "group_id" "f1" k Hk) as (i & q & Hf & Hi).
  destruct Hf as [(row & Hrow & Hc) _]. rewrite Hi in Hrow. injection Hrow as <-.
  split; [by destruct Hc|by eapply row_length].
Qed.

Lemma worst_row_facts k :
  k ∈ K' →
  get (columns d) (rw k) "group_id" = k ∧ length (rw k) = length (columns d).
Proof.
  intros Hk. destruct (extreme_row_lt d "group_id" "f1" k Hk) as (i & q & Hf & Hi).
  destruct Hf as [(row & Hrow & Hc) _]. rewrite Hi in Hrow. injection Hrow as <-.
  split; [by destruct Hc|by eapply row_length].
Qed.

Lemma get_best_group row :
  get ((λ c, "best_" +:+ c) <$> columns d) row "best_group_id"
    = get (columns d) row "group_id".
Proof. apply (get_prefix "best_" (columns d) row "group_id"). Qed.

Lemma get_worst_group row :
  get ((λ c, "worst_" +:+ c) <$> columns d) row "worst_group_id"
    = get (columns d) row "group_id".
Proof. apply (get_prefix "worst_" (columns d) row "group_id"). Qed.

(** The outer merge of the best rows with the worst rows: one row per
    scored group, the best row followed by the worst. *)
Lemma merge_best_worst :
  merge_outer (add_prefix "best_" (loc d (idxmax d "group_id" "f1")))
              (add_prefix "worst_" (loc d (idxmin d "group_id" "f1")))
              "best_group_id" "worst_group_id"
  = mkDF (((λ c, "best_" +:+ c) <$> columns d) ++ ((λ c, "worst_" +:+ c) <$> columns d))
         ((λ k, rb k ++ rw k) <$> K').
Proof.
  unfold merge_outer, add_prefix, column_cells, rows_with_key.
  cbn [columns rows]. rewrite loc_idxmax, loc_idxmin.
  assert (columns (loc d (idxmax d "group_id" "f1")) = columns d) as -> by done.
  assert (columns (loc d (idxmin d "group_id" "f1")) = columns d) as -> by done.
  f_equal.
  assert ((λ row, get ((λ c, "best_" +:+ c) <$> columns d) row "best_group_id")
            <$> (rb <$> K') = K') as ->.
  { rewrite <- list_fmap_compose. apply fmap_fixed. intros k Hk. cbn.
    rewrite get_best_group. by apply best_row_facts. }
  assert ((λ row, get ((λ c, "worst_" +:+ c) <$> columns d) row "worst_group_id")
            <$> (rw <$> K') = K') as ->.
  { rewrite <- list_fmap_compose. apply fmap_fixed. intros k Hk. cbn.
    rewrite get_worst_group. by apply worst_row_facts. }
  rewrite (sorted_keys_fixed _ K').
  2:{ apply scored_keys_sorted. }
  2:{ apply scored_keys_NoDup. }
  2:{ intros k. rewrite elem_of_app. tauto. }
  apply bind_singleton_in. intros k Hk.
  rewrite (filter_fmap_key
             (λ row, get ((λ c, "best_" +:+ c) <$> columns d) row "best_group_id")
             rb K' k).
  2:{ apply scored_keys_NoDup. }
  2:{ done. }
  2:{ intros x Hx. rewrite get_best_group. by apply best_row_facts. }
  rewrite (filter_fmap_key
             (λ row, get ((λ c, "worst_" +:+ c) <$> columns d) row "worst_group_id")
             rw K' k).
  2:{ apply scored_keys_NoDup. }
  2:{ done. }
  2:{ intros x Hx. rewrite get_worst_group. by apply worst_row_facts. }
  done.
Qed.

Lemma position_prefix p c cols :
  position (p +:+ c) ((λ c, p +:+ c) <$> cols) = position c cols.
Proof.
  apply (position_fmap_inj (λ c, p +:+ c)).
  intros h _ He. apply String.eqb_eq. rewrite <- (eqb_prefix p).
  by apply String.eqb_eq.
Qed.

Lemma renamed_columns :
  ((λ c, if String.eqb c "best_group_id" then "group_id" else c)
     <$> (((λ c, "best_" +:+ c) <$> columns d) ++ ((λ c, "worst_" +:+ c) <$> columns d)))
  = ((λ c, if String.eqb c "group_id" then "group_id" else "best_" +:+ c) <$> columns d)
      ++ ((λ c, "worst_" +:+ c) <$> columns d).
Proof.
  rewrite fmap_app, <- !list_fmap_compose. reflexivity.
Qed.

Lemma position_worst_group :
  position "worst_group_id"
    (((λ c, if String.eqb c "group_id" then "group_id" else "best_" +:+ c) <$> columns d)
       ++ ((λ c, "worst_" +:+ c) <$> columns d))
  = Some (length (columns d) + j).
Proof.
  rewrite position_app, position_fmap_None.
  2:{ intros h _. destruct (String.eqb h "group_id"); discriminate. }
  change "worst_group_id" with ("worst_" +:+ "group_id").
  rewrite position_prefix, Hj. cbn. by rewrite length_fmap.
Qed.

(** What follows the coercion of the columns: the table of the best and
    worst rows. *)
Lemma summarize_tail :
  (let best := add_prefix "best_" (loc d (idxmax d "group_id" "f1")) in
   let worst := add_prefix "worst_" (loc d (idxmin d "group_id" "f1")) in
   let combined :=
     rename_column "best_group_id" "group_id"
       (merge_outer best worst "best_group_id" "worst_group_id") in
   if bool_decide ("worst_group_id" ∈ columns combined)
   then drop_column "worst_group_id" combined else combined)
  = best_worst_table d j.
Proof.
  cbv zeta. rewrite merge_best_worst. unfold rename_column. cbn [columns rows].
  rewrite renamed_columns.
  rewrite bool_decide_eq_true_2.
  2:{ pose proof position_worst_group as Hp. apply position_Some in Hp.
      by eapply list_elem_of_lookup_2. }
  unfold drop_column. cbn [columns rows]. rewrite position_worst_group.
  unfold best_worst_table. f_equal.
  - apply delete_app_r. by rewrite length_fmap.
  - rewrite <- list_fmap_compose. apply fmap_ext_in. intros k Hk. cbn.
    apply delete_app_r. by apply best_row_facts.
Qed.

Lemma prefix_inj p a b : p +:+ a = p +:+ b → a = b.
Proof.
  intros He. apply String.eqb_eq. rewrite <- (eqb_prefix p).
  by apply String.eqb_eq.
Qed.

Lemma position_group_best :
  position "group_id"
    ((λ c, if String.eqb c "group_id" then "group_id" else "best_" +:+ c) <$> columns d)
  = Some j.
Proof.
  rewrite <- Hj.
  apply (position_fmap_inj
           (λ c, if String.eqb c "group_id" then "group_id" else "best_" +:+ c)
           "group_id").
  intros h _. destruct (String.eqb_spec h "group_id"); [done|discriminate].
Qed.

Lemma position_best c :
  c ≠ "group_id" →
  position ("best_" +:+ c)
    ((λ c, if String.eqb c "group_id" then "group_id" else "best_" +:+ c) <$> columns d)
  = position c (columns d).
Proof.
  intros Hc.
  pose proof (position_fmap_inj
                (λ c, if String.eqb c "group_id" then "group_id" else "best_" +:+ c)
                c (columns d)) as H.
  cbv beta in H. apply String.eqb_neq in Hc. rewrite Hc in H. apply H.
  intros h _. destruct (String.eqb_spec h "group_id"); [discriminate|].
  apply prefix_inj.
Qed.

Lemma worst_not_best c :
  "worst_" +:+ c
    ∉ (λ c, if String.eqb c "group_id" then "group_id" else "best_" +:+ c) <$> columns d.
Proof.
  intros (h & He & _)%list_elem_of_fmap.
  destruct (String.eqb h "group_id"); discriminate.
Qed.

(** The cells of the record written for a scored group. *)
Lemma record_group k :
  k ∈ K' →
  get (columns (best_worst_table d j)) (rb k ++ delete j (rw k)) "group_id" = k.
Proof.
  intros Hk. destruct (best_row_facts k Hk) as [Hg Hlen].
  unfold best_worst_table. cbn [columns]. unfold get.
  rewrite position_app, position_group_best.
  pose proof (position_lt _ _ _ Hj) as Hlt.
  rewrite lookup_app_l by lia. unfold get in Hg. by rewrite Hj in Hg.
Qed.

Lemma record_best k c :
  k ∈ K' → c ∈ columns d → c ≠ "group_id" →
  get (columns (best_worst_table d j)) (rb k ++ delete j (rw k)) ("best_" +:+ c)
    = get (columns d) (rb k) c.
Proof.
  intros Hk Hin Hc. destruct (best_row_facts k Hk) as [_ Hlen].
  unfold best_worst_table. cbn [columns]. unfold get.
  rewrite position_app, position_best by done.
  destruct (position_is_Some c _ Hin) as [i Hi]. rewrite Hi.
  apply position_lt in Hi. by rewrite lookup_app_l by lia.
Qed.

Lemma record_worst k c :
  k ∈ K' → c ∈ columns d → c ≠ "group_id" →
  get (columns (best_worst_table d j)) (rb k ++ delete j (rw k)) ("worst_" +:+ c)
    = get (columns d) (rw k) c.
Proof.
  intros Hk Hin Hc. destruct (best_row_facts k Hk) as [_ Hlen].
  unfold best_worst_table. cbn [columns].
  rewrite get_app_r; [| by rewrite length_fmap | apply worst_not_best].
  rewrite get_delete.
  - apply get_prefix.
  - apply list_elem_of_fmap. by exists c.
  - rewrite list_lookup_fmap. apply position_Some in Hj. rewrite Hj. cbn.
    intros [= He]. apply prefix_inj in He. congruence.
Qed.

End summary_table.



(** ** The coercion of the numeric columns *)

Section preparation.

Variable float_of_str : string → option Qc.

Lemma to_numeric_idem v :
  to_numeric float_of_str (to_numeric float_of_str v) = to_numeric float_of_str v.
Proof. destruct v as [|q|s]; cbn; [done|done|]. by destruct (float_of_str s). Qed.

Lemma get_alter cols row col j c :
  position col cols = Some j →
  get cols (alter (to_numeric float_of_str) j row) c
    = if bool_decide (c = col) then to_numeric float_of_str (get cols row c)
      else get cols row c.
Proof.
  intros Hj. unfold get. case_bool_decide as Hc.
  - subst c. rewrite Hj, list_lookup_alter, decide_True by done.
    destruct (row !! j); reflexivity.
  - destruct (position c cols) as [i|] eqn:Hi; [|done].
    rewrite list_lookup_alter_ne; [done|]. intros ->.
    apply position_Some in Hi, Hj. congruence.
Qed.

(** The rows after the loop that coerces the columns [cs]. *)
Lemma coerce_columns_rows cs df d :
  coerce_columns float_of_str cs df = Ok d →
  columns d = columns df ∧
  Forall2 (λ row row',
             length row' = length row ∧
             ∀ c, get (columns df) row' c
                  = if bool_decide (c ∈ cs)
                    then to_numeric float_of_str (get (columns df) row c)
                    else get (columns df) row c)
    (rows df) (rows d).
Proof.
  revert df. induction cs as [|col cs IH]; intros df; cbn [coerce_columns].
  - intros [= <-]. split; [done|]. apply Forall2_same_length_lookup_2; [done|].
    intros i row row' H1 H2. rewrite H1 in H2. injection H2 as <-.
    split; [done|]. intros c. by rewrite bool_decide_eq_false_2 by apply not_elem_of_nil.
  - unfold coerce_column at 1.
    destruct (position col (columns df)) as [j|] eqn:Hj; [|done].
    intros Hd. apply IH in Hd as [Hcols Hrows]. cbn [columns rows] in *.
    split; [done|]. apply Forall2_fmap_l in Hrows.
    eapply Forall2_impl; [exact Hrows|]. cbn. intros row row' [Hlen Hget].
    split; [by rewrite Hlen, length_alter|]. intros c.
    rewrite Hget, (get_alter _ _ col j c Hj).
    destruct (decide (c = col)) as [->|Hne].
    + rewrite (bool_decide_eq_true_2 (col = col)) by done.
      rewrite (bool_decide_eq_true_2 (col ∈ col :: cs)) by left.
      case_bool_decide; [by rewrite to_numeric_idem|done].
    + rewrite (bool_decide_eq_false_2 (c = col)) by done.
      case_bool_decide as Hin.
      * rewrite bool_decide_eq_true_2 by (by right). done.
      * rewrite bool_decide_eq_false_2; [done|].
        intros [?|?]%elem_of_cons; done.
Qed.

(** The rows after the line that sets [num_questions]. *)
Lemma set_num_questions_rows d1 :
  Forall (λ row, length row = length (columns d1)) (rows d1) →
  (∀ c, c ∈ columns d1 →
     position c (columns (set_num_questions float_of_str d1))
       = position c (columns d1)) ∧
  Forall2 (λ row row',
             length row' = length (columns (set_num_questions float_of_str d1)) ∧
             ∀ c, get (columns (set_num_questions float_of_str d1)) row' c
                  = if bool_decide (c = "num_questions")
                    then to_numeric float_of_str (get (columns d1) row c)
                    else get (columns d1) row c)
    (rows d1) (rows (set_num_questions float_of_str d1)).
Proof.
  intros Hlen. unfold set_num_questions.
  destruct (position "num_questions" (columns d1)) as [j|] eqn:Hj; cbn [columns rows].
  - split; [done|]. apply Forall2_fmap_r, Forall2_same_length_lookup_2; [done|].
    intros i row row' H1 H2. rewrite H1 in H2. injection H2 as <-.
    split.
    + rewrite length_alter.
      by eapply (proj1 (Forall_forall _ _) Hlen), list_elem_of_lookup_2.
    + intros c. by apply get_alter.
  - split.
    + intros c Hc. rewrite position_app.
      by destruct (position_is_Some c _ Hc) as [i ->].
    + apply Forall2_fmap_r, Forall2_same_length_lookup_2; [done|].
      intros i row row' H1 H2. rewrite H1 in H2. injection H2 as <-.
      assert (length row = length (columns d1)) as Hrow
        by (by eapply (proj1 (Forall_forall _ _) Hlen), list_elem_of_lookup_2).
      split; [rewrite !length_app; cbn; lia|]. intros c.
      unfold get. rewrite position_app. case_bool_decide as Hc.
      * subst c. rewrite Hj. cbn. rewrite lookup_app_r by lia.
        by replace (length (columns d1) + 0 - length row) with 0 by lia.
      * destruct (position c (columns d1)) as [n|] eqn:Hn.
        -- apply position_lt in Hn. by rewrite lookup_app_l by lia.
        -- cbn [position].
           destruct (String.eqb_spec "num_questions" c) as [<-|]; done.
Qed.

(** The table handed to [groupby]: its rows are those read, cell by cell,
    the numeric columns coerced. *)
Lemma prepared_rows df d1 :
  Forall (λ row, length row = length (columns df)) (rows df) →
  coerce_columns float_of_str numeric_cols df = Ok d1 →
  Forall (λ row, length row = length (columns (set_num_questions float_of_str d1)))
    (rows (set_num_questions float_of_str d1)) ∧
  (∀ c, c ∈ columns df →
     position c (columns (set_num_questions float_of_str d1))
       = position c (columns df)) ∧
  Forall2 (λ row row',
             ∀ c, get (columns (set_num_questions float_of_str d1)) row' c
                  = coerced float_of_str (columns df) row c)
    (rows df) (rows (set_num_questions float_of_str d1)).
Proof.
  intros Hlen Hd1. apply coerce_columns_rows in Hd1 as [Hcols H1].
  assert (Forall (λ row, length row = length (columns d1)) (rows d1)) as Hlen1.
  { apply Forall_forall. intros row' Hrow'.
    apply list_elem_of_lookup_1 in Hrow' as [i Hi].
    destruct (Forall2_lookup_r _ _ _ _ _ H1 Hi) as (row & Hrow & Hl & _).
    rewrite Hl, Hcols.
    by eapply (proj1 (Forall_forall _ _) Hlen), list_elem_of_lookup_2. }
  destruct (set_num_questions_rows d1 Hlen1) as [Hpos H2].
  split; [|split].
  - apply Forall_forall. intros row' Hrow'.
    apply list_elem_of_lookup_1 in Hrow' as [i Hi].
    by destruct (Forall2_lookup_r _ _ _ _ _ H2 Hi) as (row & _ & Hl & _).
  - intros c Hc. rewrite Hpos by (by rewrite Hcols). by rewrite Hcols.
  - apply Forall2_same_length_lookup_2.
    { apply Forall2_length in H1, H2. congruence. }
    intros i row row2 Hr Hr2.
    destruct (Forall2_lookup_l _ _ _ _ _ H1 Hr) as (row1 & Hr1 & _ & Hg1).
    destruct (Forall2_lookup_lr _ _ _ _ _ _ H2 Hr1 Hr2) as [_ Hg2].
    intros c. rewrite Hg2, Hcols, !Hg1. unfold coerced.
    destruct (decide (c = "num_questions")) as [->|Hne].
    + rewrite (bool_decide_eq_true_2 ("num_questions" = "num_questions")) by done.
      by rewrite (bool_decide_eq_true_2 (_ ∈ "num_questions" :: _)) by left.
    + rewrite (bool_decide_eq_false_2 (c = "num_questions")) by done.
      case_bool_decide as Hin.
      * by rewrite bool_decide_eq_true_2 by (by right).
      * rewrite bool_decide_eq_false_2; [done|].
        intros [?|?]%elem_of_cons; done.
Qed.

End preparation.


(** ** The summariser on a table with its metric columns *)

Section summary_facts.

Variable float_of_str : string → option Qc.
Variable df : DataFrame.
Hypothesis Hlen : Forall (λ row, length row = length (columns df)) (rows df).
Hypothesis Hempty : empty df = false.
Hypothesis Hgroup : "group_id" ∈ columns df.
Hypothesis Hnum : ∀ c, c ∈ numeric_cols → c ∈ columns df.

Lemma coerce_columns_ok :
  ∃ d1, coerce_columns float_of_str numeric_cols df = Ok d1.
Proof.
  destruct (coerce_columns float_of_str numeric_cols df) as [d1|e] eqn:E;
    [by eexists|].
  apply coerce_columns_raise in E as (c & Hc & _).
  apply head_Some_elem_of, list_elem_of_filter in Hc as [Hn Hc].
  destruct Hn. by apply Hnum.
Qed.

Lemma coerced_group row :
  coerced float_of_str (columns df) row "group_id" = get (columns df) row "group_id".
Proof. reflexivity. Qed.

(** The table written, and the table handed to [groupby], whose rows are
    those read with the numeric columns coerced. *)
Lemma summarize_table :
  ∃ d j,
    summarize_best_worst float_of_str df = Ok (Some (best_worst_table d j)) ∧
    position "group_id" (columns d) = Some j ∧
    Forall (λ row, length row = length (columns d)) (rows d) ∧
    (∀ c, c ∈ columns df ∨ c = "num_questions" → c ∈ columns d) ∧
    Forall2 (λ row row',
               ∀ c, get (columns d) row' c = coerced float_of_str (columns df) row c)
      (rows df) (rows d).
Proof.
  destruct coerce_columns_ok as [d1 Hd1].
  destruct (prepared_rows float_of_str df d1 Hlen Hd1) as (Hlen' & Hpos & Hrel).
  destruct (position_is_Some "group_id" _ Hgroup) as [j Hj].
  exists (set_num_questions float_of_str d1), j.
  assert (position "group_id" (columns (set_num_questions float_of_str d1)) = Some j)
    as Hj' by (by rewrite Hpos).
  split; [|split; [done|split; [done|split; [|done]]]].
  - rewrite summarize_unguarded, Hd1 by done. cbv zeta.
    f_equal. f_equal. by apply summarize_tail.
  - intros c [Hc| ->].
    + destruct (position_is_Some c _ Hc) as [i Hi]. rewrite <- Hpos in Hi by done.
      apply position_Some in Hi. by eapply list_elem_of_lookup_2.
    + unfold set_num_questions.
      destruct (position "num_questions" (columns d1)) as [i|] eqn:Hi; cbn [columns].
      * apply position_Some in Hi. by eapply list_elem_of_lookup_2.
      * apply elem_of_app. right. left.
Qed.

End summary_facts.

(** C1, as stated, fails: a table with a [group_id] column and an [f1]
    column, and a row with a numeric f1, makes the summariser raise, its
    [accuracy] column being looked up and not found. *)
Lemma summarize_group_f1_only_raises :
  "group_id" ∈ columns df_no_accuracy ∧ "f1" ∈ columns df_no_accuracy ∧
  rows df_no_accuracy = [[Str "A"; Num (Q2Qc (1 # 2))]] ∧
  summarize_best_worst float_half df_no_accuracy = Raise (KeyError "accuracy").
Proof.
  split; [left|]. split; [right; left|]. split; reflexivity.
Qed.

(** C1, amended: for a table as read from a file, with distinct column
    names and every row full, that has a row and the columns [group_id],
    [accuracy], [precision], [recall] and [f1], and each group of which has
    a row with a numeric f1 once coerced, the
    summariser writes a table with exactly one record for each group, the
    rows with a missing [group_id] forming no group. In the record of a
    group the [best_] fields are the cells, numeric columns coerced, of the
    first row of the group whose f1 is the greatest of the group, and the
    [worst_] fields those of the first row whose f1 is the least; for a
    group of one row, [best_f1] and [worst_f1] are both the f1 of that
    row. *)
Theorem summarize_one_record_per_group float_of_str df :
  NoDup (columns df) →
  Forall (λ row, length row = length (columns df)) (rows df) →
  empty df = false →
  "group_id" ∈ columns df →
  (∀ c, c ∈ numeric_cols → c ∈ columns df) →
  (∀ row, row ∈ rows df → get (columns df) row "group_id" ≠ NaN →
     ∃ row' q, row' ∈ rows df ∧
       get (columns df) row' "group_id" = get (columns df) row "group_id" ∧
       coerced float_of_str (columns df) row' "f1" = Num q) →
  ∃ out,
    summarize_best_worst float_of_str df = Ok (Some out) ∧
    NoDup (column_cells out "group_id") ∧
    (∀ k, k ∈ column_cells out "group_id" ↔
          k ≠ NaN ∧ ∃ row, row ∈ rows df ∧ get (columns df) row "group_id" = k) ∧
    ∀ r, r ∈ rows out →
      ∃ i rowb qb j roww qw,
        rows df !! i = Some rowb ∧ rows df !! j = Some roww ∧
        get (columns df) rowb "group_id" = get (columns out) r "group_id" ∧
        get (columns df) roww "group_id" = get (columns out) r "group_id" ∧
        coerced float_of_str (columns df) rowb "f1" = Num qb ∧
        coerced float_of_str (columns df) roww "f1" = Num qw ∧
        (∀ n row q,
           rows df !! n = Some row →
           get (columns df) row "group_id" = get (columns out) r "group_id" →
           coerced float_of_str (columns df) row "f1" = Num q →
           (q ≤ qb)%Qc ∧ (n < i → (q < qb)%Qc) ∧
           (qw ≤ q)%Qc ∧ (n < j → (qw < q)%Qc)) ∧
        (∀ c, c ∈ columns df ∨ c = "num_questions" → c ≠ "group_id" →
           get (columns out) r ("best_" +:+ c)
             = coerced float_of_str (columns df) rowb c ∧
           get (columns out) r ("worst_" +:+ c)
             = coerced float_of_str (columns df) roww c) ∧
        ((∀ n row, rows df !! n = Some row →
            get (columns df) row "group_id" = get (columns out) r "group_id" →
            n = i) →
         get (columns out) r "best_f1" = Num qb ∧
         get (columns out) r "worst_f1" = Num qb).
Proof.
  intros _ Hlen Hempty Hgroup Hnum Hall.
  destruct (summarize_table float_of_str df Hlen Hempty Hgroup Hnum)
    as (d & j & Hrun & Hj & Hlend & Hcols & Hrel).
  exists (best_worst_table d j). split; [done|].
  (* rows of the prepared table against rows of the table read *)
  assert (∀ n row row' k q,
            rows df !! n = Some row → rows d !! n = Some row' →
            candidate (columns d) "group_id" "f1" k row' q ↔
            get (columns df) row "group_id" = k ∧
            coerced float_of_str (columns df) row "f1" = Num q) as Hcand.
  { intros n row row' k q Hr Hr'.
    pose proof (Forall2_lookup_lr _ _ _ _ _ _ Hrel Hr Hr') as Hg.
    unfold candidate. by rewrite !Hg. }
  assert (column_cells (best_worst_table d j) "group_id"
          = scored_keys d "group_id" "f1") as Hgroups.
  { unfold column_cells.
    assert (rows (best_worst_table d j)
            = (λ k, extreme_row gt d "group_id" "f1" k
                      ++ delete j (extreme_row lt d "group_id" "f1" k))
                <$> scored_keys d "group_id" "f1") as -> by done.
    rewrite <- list_fmap_compose.
    apply fmap_fixed. intros k Hk. cbn. by apply record_group. }
  assert (∀ k, k ∈ scored_keys d "group_id" "f1" ↔
               k ≠ NaN ∧ ∃ row, row ∈ rows df ∧ get (columns df) row "group_id" = k)
    as Hkeys.
  { intros k. rewrite scored_keys_elem. split.
    - intros [Hk (row' & q & Hr' & Hc)]. split; [done|].
      apply list_elem_of_lookup_1 in Hr' as [n Hn].
      destruct (Forall2_lookup_r _ _ _ _ _ Hrel Hn) as (row & Hr & _).
      exists row. split; [by eapply list_elem_of_lookup_2|].
      by destruct (proj1 (Hcand n row row' k q Hr Hn) Hc) as [? _].
    - intros [Hk (row & Hr & Hg)]. split; [done|].
      destruct (Hall row Hr) as (row1 & q & Hr1 & Hg1 & Hq); [congruence|].
      apply list_elem_of_lookup_1 in Hr1 as [n Hn].
      destruct (Forall2_lookup_l _ _ _ _ _ Hrel Hn) as (row' & Hr' & _).
      exists row', q. split; [by eapply list_elem_of_lookup_2|].
      apply (Hcand n row1 row' k q Hn Hr'). split; [congruence|done]. }
  split; [rewrite Hgroups; apply scored_keys_NoDup|].
  split; [intros k; by rewrite Hgroups|].
  intros r Hr.
  assert (rows (best_worst_table d j)
          = (λ k, extreme_row gt d "group_id" "f1" k
                    ++ delete j (extreme_row lt d "group_id" "f1" k))
              <$> scored_keys d "group_id" "f1") as Hrows by done.
  rewrite Hrows in Hr. clear Hrows.
  apply list_elem_of_fmap in Hr as (k & -> & Hk).
  rewrite (record_group d j Hlend Hj k Hk).
  destruct (extreme_row_gt d "group_id" "f1" k Hk) as (i & qb & [Hib Hmax] & Hrb).
  destruct (extreme_row_lt d "group_id" "f1" k Hk) as (i' & qw & [Hiw Hmin] & Hrw).
  destruct Hib as (rb0 & Hrb0 & Hcb). rewrite Hrb in Hrb0. injection Hrb0 as <-.
  destruct Hiw as (rw0 & Hrw0 & Hcw). rewrite Hrw in Hrw0. injection Hrw0 as <-.
  destruct (Forall2_lookup_r _ _ _ _ _ Hrel Hrb) as (rowb & Hrowb & Hgb).
  destruct (Forall2_lookup_r _ _ _ _ _ Hrel Hrw) as (roww & Hroww & Hgw).
  destruct (proj1 (Hcand i rowb _ k qb Hrowb Hrb) Hcb) as [Hkb Hqb].
  destruct (proj1 (Hcand i' roww _ k qw Hroww Hrw) Hcw) as [Hkw Hqw].
  assert (∀ c, c ∈ columns df ∨ c = "num_questions" → c ≠ "group_id" →
            get (columns (best_worst_table d j))
              (extreme_row gt d "group_id" "f1" k
                 ++ delete j (extreme_row lt d "group_id" "f1" k)) ("best_" +:+ c)
              = coerced float_of_str (columns df) rowb c ∧
            get (columns (best_worst_table d j))
              (extreme_row gt d "group_id" "f1" k
                 ++ delete j (extreme_row lt d "group_id" "f1" k)) ("worst_" +:+ c)
              = coerced float_of_str (columns df) roww c) as Hfields.
  { intros c Hc Hne. apply Hcols in Hc. split.
    - rewrite (record_best d j Hlend k c Hk Hc Hne). apply Hgb.
    - rewrite (record_worst d j Hlend Hj k c Hk Hc Hne). apply Hgw. }
  exists i, rowb, qb, i', roww, qw.
  split; [done|]. split; [done|]. split; [done|]. split; [done|].
  split; [done|]. split; [done|]. split; [|split; [done|]].
  - intros n row q Hn Hg Hq.
    destruct (Forall2_lookup_l _ _ _ _ _ Hrel Hn) as (row' & Hn' & _).
    assert (candidate (columns d) "group_id" "f1" k row' q) as Hc
      by (by apply (Hcand n row row' k q Hn Hn')).
    destruct (Hmax n row' q Hn' Hc) as [Hnb Hfb].
    destruct (Hmin n row' q Hn' Hc) as [Hnw Hfw].
    split; [by apply Qcnot_lt_le|]. split; [done|].
    split; [by apply Qcnot_lt_le|done].
  - intros Hone.
    assert (i' = i) as -> by (by eapply Hone).
    rewrite Hroww in Hrowb. injection Hrowb as ->.
    assert (qw = qb) as -> by congruence.
    destruct (Hfields "f1") as [Hb Hw]; [left; apply Hnum; repeat constructor|done|].
    change "best_f1" with ("best_" +:+ "f1").
    change "worst_f1" with ("worst_" +:+ "f1").
    by rewrite Hb, Hw.
Qed.

Lemma summarize_one_record_per_group_witness :
  ∃ out,
    summarize_best_worst float_half df_metrics = Ok (Some out) ∧
    NoDup (column_cells out "group_id") ∧
    Str "A" ∈ column_cells out "group_id".
Proof.
  destruct (summarize_one_record_per_group float_half df_metrics)
    as (out & Hrun & Hnd & Hk & _).
  - apply (bool_decide_unpack _). vm_compute. exact I.
  - repeat constructor.
  - reflexivity.
  - left.
  - intros c Hc.
    apply (proj1 (Forall_forall (λ c, c ∈ columns df_metrics) numeric_cols));
      [|exact Hc].
    apply (bool_decide_unpack _). vm_compute. exact I.
  - intros row Hrow _. exists row, (Q2Qc (1 # 2)).
    split; [exact Hrow|]. split; [reflexivity|].
    revert row Hrow. apply Forall_forall.
    repeat constructor.
  - exists out. split; [exact Hrun|]. split; [exact Hnd|].
    apply Hk. split; [discriminate|].
    exists [Str "A"; Str "0.5"; Str "x"; Str "0.5"; Str "0.5"].
    split; [right; left|reflexivity].
Defined.
